(** * Git-Conflict-Detector: a shallow embedding of [src/git-conflict-detector.ts]

    The class [GitConflictDetector] is embedded function by function.
    JavaScript strings are sequences of UTF-16 code units; the three
    collaborators of the class ([fs.existsSync], [child_process.execSync]
    and [axios.get]) are oracles that answer from the history of the calls
    made so far and the arguments of the call: whatever the outside world
    does in a run, some oracle answers the same. *)

From Stdlib Require Import Ascii String.
From stdpp Require Import base decidable option list numbers gmap pretty.

Set Default Proof Using "Type".
Local Open Scope N_scope.

(** ** JavaScript strings *)

(** A string is its list of UTF-16 code units. *)
Abbreviation jsstring := (list N).

(** A source literal (all literals of the program are ASCII). *)
Definition lit (s : string) : jsstring :=
  (λ a, N_of_ascii a) <$> list_ascii_of_string s.
Arguments lit : simpl never.

Definition TAB : N := 9.
Definition LF : N := 10.
Definition SPACE : N := 32.
Definition STAR : N := 42.

(** [WhiteSpace] and [LineTerminator] of ECMAScript: what
    [String.prototype.trim] removes and what [\s] matches. *)
Definition white_space_units : list N :=
  [9; 10; 11; 12; 13; 32; 160; 5760; 8232; 8233; 8239; 8287; 12288; 65279].

Definition is_white_space (c : N) : bool :=
  bool_decide (c ∈ white_space_units) || ((8192 <=? c) && (c <=? 8202)).

(** [s.trimStart()] *)
Fixpoint trimStart (s : jsstring) : jsstring :=
  match s with
  | [] => []
  | c :: s' => if is_white_space c then trimStart s' else s
  end.

(** [s.trimEnd()] *)
Definition trimEnd (s : jsstring) : jsstring :=
  reverse (trimStart (reverse s)).

(** [s.trim()] *)
Definition trim (s : jsstring) : jsstring := trimEnd (trimStart s).

(** [s.split(sep)] for a separator of one code unit; the result always has
    at least one field ([''.split('\n')] is [['']]). *)
Fixpoint split (sep : N) (s : jsstring) : list jsstring :=
  match s with
  | [] => [[]]
  | c :: s' =>
      if decide (c = sep) then [] :: split sep s'
      else match split sep s' with
           | field :: fields => (c :: field) :: fields
           | [] => [[c]]
           end
  end.

(** [parts.join(sep)] *)
Fixpoint join (sep : jsstring) (parts : list jsstring) : jsstring :=
  match parts with
  | [] => []
  | [p] => p
  | p :: ps => p ++ sep ++ join sep ps
  end.

(** Truthiness of a string, as used by [!s], [if (s)] and [filter(Boolean)]. *)
Definition truthy (s : jsstring) : Prop := s ≠ [].

#[global] Instance truthy_dec s : Decision (truthy s).
Proof. unfold truthy. apply _. Defined.

(** [haystack.includes(needle)], also Jest's [toContain] on strings. *)
Fixpoint starts_with (needle s : jsstring) : bool :=
  match needle, s with
  | [], _ => true
  | _ :: _, [] => false
  | a :: needle', b :: s' => bool_decide (a = b) && starts_with needle' s'
  end.

Fixpoint includes (s needle : jsstring) : bool :=
  starts_with needle s ||
  match s with
  | [] => false
  | _ :: s' => includes s' needle
  end.

(** A template literal renders an absent value as [undefined]. *)
Definition template (v : option jsstring) : jsstring :=
  match v with
  | Some s => s
  | None => lit "undefined"
  end.

(** Rendering of a number inside a template literal, for the numbers it
    is used on: non-negative integers below 2^53, which [Number::toString]
    prints in decimal with all their digits. *)
Definition number_to_string (n : N) : jsstring := lit (pretty n).

(** The status of an HTTP response, as Node reads it off the status line:
    a non-negative integer, below 2^53 like every integer a JavaScript
    number holds exactly. *)
Record status_code := StatusCode {
  status_number : N;
  status_safe : Is_true (status_number <? 2 ^ 53)
}.

(** ** Data model *)

Record GitConflictDetectorConfig := {
  owner : jsstring;
  repo : jsstring;
  accessToken : jsstring;
  localRepoPath : jsstring;
  branchA : jsstring;
  branchB : jsstring
}.

Record ConflictDetectionResult := {
  potentialConflicts : list jsstring;
  mergeBaseCommit : jsstring;
  error : option jsstring
}.

Record FileChange := {
  filename : jsstring;
  status : jsstring
}.

(** ** Pure helpers of the class *)

(** [findCommonChanges]: a [Set] of the local filenames, then the remote
    list filtered by membership and mapped to filenames. *)
Definition findCommonChanges (localChanges remoteChanges : list FileChange)
  : list jsstring :=
  let localFiles : gset jsstring := list_to_set (filename <$> localChanges) in
  filename <$> filter (λ change, filename change ∈ localFiles) remoteChanges.

(** One line of [git diff --name-status]: the body of the [map] callback.
    [split] returns at least one field, so the destructuring always finds
    a [status]; the second branch is there for totality only. *)
Definition parseDiffLine (line : jsstring) : FileChange :=
  match split TAB (trim line) with
  | status :: filenameParts =>
      {| filename := join [TAB] filenameParts; status := status |}
  | [] => {| filename := []; status := [] |}
  end.

(** [parseGitDiffOutput] *)
Definition parseGitDiffOutput (output : jsstring) : list FileChange :=
  if decide (truthy (trim output)) then
    parseDiffLine <$> filter truthy (split LF (trim output))
  else [].

(** The callback of [validateLocalRepository]'s [map]:
    [branch.trim().replace(/^\*\s*/, '')]. *)
Definition stripCurrentMarker (trimmed : jsstring) : jsstring :=
  match trimmed with
  | c :: rest => if decide (c = STAR) then trimStart rest else trimmed
  | [] => []
  end.

Definition parseBranchList (output : jsstring) : list jsstring :=
  filter truthy ((λ branch, stripCurrentMarker (trim branch)) <$> split LF output).

(** ** The outside world *)

(** Whether a thrown value is an [Error], whose [message] is then a
    string ([Error.message : string]), or any other value, which may have
    a [message] property (a string) or none. *)
Inductive error_nature :=
| AnError (message : jsstring)
| NotAnError (message : option jsstring).

(** [String(value)] returns a string, or throws: a value without a
    primitive form ([Object.create(null)]), or one whose [toString]
    throws. *)
Inductive conversion (value : Type) :=
| Converted (text : jsstring)
| Fault (fault : value).
Arguments Converted {value} text.
Arguments Fault {value} fault.

(** What the program observes of a thrown (or rejected) value. What a
    failed conversion throws is a thrown value in turn; a run converts at
    most twice in a row (in a stage's handler, then at the boundary), so a
    finite nesting describes every value as far as a run can tell. *)
#[warnings="-register-all"]
Inductive thrown := Thrown {
  nature : error_nature;                        (* error instanceof Error, error.message *)
  to_String : conversion thrown;                (* String(error) *)
  isAxiosError : bool;                          (* object with a truthy isAxiosError *)
  response_status : option status_code;         (* error.response?.status *)
  response_data_message : option jsstring       (* error.response?.data?.message *)
}.

(** [error instanceof Error] *)
Definition instanceof_Error (e : thrown) : bool :=
  match nature e with AnError _ => true | NotAnError _ => false end.

(** [error.message] *)
Definition message (e : thrown) : option jsstring :=
  match nature e with AnError msg => Some msg | NotAnError msg => msg end.

(** [new Error(msg)] *)
Definition new_Error (msg : jsstring) : thrown :=
  {| nature := AnError msg;
     to_String :=
       Converted (if decide (truthy msg) then lit "Error: " ++ msg else lit "Error");
     isAxiosError := false;
     response_status := None;
     response_data_message := None |}.

Inductive outcome (A : Type) :=
| Return (a : A)
| Throw (e : thrown).
Arguments Return {A} a.
Arguments Throw {A} e.

(** The value [execSync] hands back: a string under [encoding: 'utf-8'],
    anything else is coerced with [String(result)]. *)
Inductive exec_result :=
| ExecString (s : jsstring)
| ExecOther (as_string : jsstring).

(** One entry of the [files] array of the compare endpoint. *)
Record api_file := {
  api_sha : jsstring;
  api_filename : jsstring;
  api_status : jsstring;
  api_changes : N
}.

(** [response.data], a JSON object: its [files] property is [None] when
    absent or falsy, and an array of entries otherwise. *)
Record response := { data_files : option (list api_file) }.

(** Calls that leave the process, in the order they are made. *)
Inductive event :=
| ExistsSync (path : jsstring)
| ExecSync (command cwd : jsstring)
| AxiosGet (url authorization accept : jsstring).

Abbreviation history := (list event).

(** The collaborators answer from the calls made before and the arguments
    of the call. [fs.existsSync] reports every failure as [false] and does
    not throw; [execSync] returns or throws; the promise of [axios.get]
    resolves or rejects, and [await] turns a rejection into a throw. *)
Record Env := {
  fs_existsSync : history → jsstring → bool;
  child_process_execSync : history → jsstring → jsstring → outcome exec_result;
  axios_get : history → jsstring → jsstring → jsstring → outcome response
}.

(** ** Computations: the call history is threaded, a fault aborts *)

Definition M (A : Type) : Type := history → outcome A * history.

#[global] Instance M_ret : MRet M := λ A a h, (Return a, h).

#[global] Instance M_bind : MBind M := λ A B f m h,
  match m h with
  | (Return a, h') => f a h'
  | (Throw e, h') => (Throw e, h')
  end.

Definition throw {A} (e : thrown) : M A := λ h, (Throw e, h).

(** [try { body } catch (error) { handler }] *)
Definition try_catch {A} (body : M A) (handler : thrown → M A) : M A := λ h,
  match body h with
  | (Return a, h') => (Return a, h')
  | (Throw e, h') => handler e h'
  end.

(** [String(error)] *)
Definition js_String (error : thrown) : M jsstring :=
  match to_String error with
  | Converted text => mret text
  | Fault fault => throw fault
  end.

(** [a || b] on possibly absent strings. *)
Definition or_else (a b : option jsstring) : option jsstring :=
  match a with
  | Some s => if decide (truthy s) then Some s else b
  | None => b
  end.

(** [if (v)] for [v : string | null]. *)
Definition truthy_value (v : option jsstring) : Prop :=
  match v with
  | Some s => truthy s
  | None => False
  end.

#[global] Instance truthy_value_dec v : Decision (truthy_value v).
Proof. destruct v; simpl; apply _. Defined.

Module GitConflictDetector.
Section methods.
Context (env : Env) (config : GitConflictDetectorConfig).

Definition existsSync (path : jsstring) : M bool := λ h,
  (Return (fs_existsSync env h path), h ++ [ExistsSync path]).

Definition execSync (command cwd : jsstring) : M exec_result := λ h,
  (child_process_execSync env h command cwd, h ++ [ExecSync command cwd]).

Definition axiosGet (url authorization accept : jsstring) : M response := λ h,
  (axios_get env h url authorization accept, h ++ [AxiosGet url authorization accept]).

Definition execGitCommand (command : jsstring) : M jsstring :=
  try_catch
    (result ← execSync (lit "git " ++ command) (localRepoPath config);
     mret (match result with
           | ExecString s => s
           | ExecOther as_string => as_string
           end))
    (λ error,
       if instanceof_Error error then
         throw (new_Error (lit "Git command failed: git " ++ command
                           ++ lit " - " ++ template (message error)))
       else throw error).

Definition validateConfig : M (option jsstring) :=
  if decide (¬ truthy (owner config)) then mret (Some (lit "Owner is required"))
  else if decide (¬ truthy (repo config)) then mret (Some (lit "Repository name is required"))
  else if decide (¬ truthy (accessToken config)) then mret (Some (lit "Access token is required"))
  else if decide (¬ truthy (localRepoPath config)) then mret (Some (lit "Local repository path is required"))
  else if decide (¬ truthy (branchA config)) then mret (Some (lit "Branch A name is required"))
  else if decide (¬ truthy (branchB config)) then mret (Some (lit "Branch B name is required"))
  else
    present ← existsSync (localRepoPath config);
    if negb present then
      mret (Some (lit "Local repository path does not exist: " ++ localRepoPath config))
    else mret None.

Definition validateLocalRepository : M (option jsstring) :=
  try_catch
    (_ ← execGitCommand (lit "rev-parse --is-inside-work-tree");
     output ← execGitCommand (lit "branch --list");
     let branches := parseBranchList output in
     if decide (branchB config ∉ branches) then
       mret (Some (lit "Branch '" ++ branchB config ++ lit "' does not exist locally"))
     else mret None)
    (λ error,
       if instanceof_Error error then
         mret (Some (lit "Invalid git repository at " ++ localRepoPath config
                     ++ lit ": " ++ template (message error)))
       else
         text ← js_String error;
         mret (Some text)).

Definition findMergeBaseCommit : M jsstring :=
  try_catch
    (let remoteRef := lit "origin/" ++ branchA config in
     output ← execGitCommand (lit "merge-base " ++ remoteRef ++ lit " " ++ branchB config);
     let mergeBase := trim output in
     if decide (¬ truthy mergeBase) then
       throw (new_Error (lit "Could not find merge base between " ++ remoteRef
                         ++ lit " and " ++ branchB config))
     else mret mergeBase)
    (λ error,
       if instanceof_Error error then
         throw (new_Error (lit "Failed to find merge base: " ++ template (message error)))
       else throw error).

Definition getLocalChanges (mergeBaseCommit : jsstring) : M (list FileChange) :=
  try_catch
    (output ← execGitCommand (lit "diff --name-status " ++ mergeBaseCommit
                              ++ lit " " ++ branchB config);
     mret (parseGitDiffOutput output))
    (λ error,
       if instanceof_Error error then
         throw (new_Error (lit "Failed to get local changes: " ++ template (message error)))
       else throw error).

Definition compareUrl (mergeBaseCommit : jsstring) : jsstring :=
  lit "https://api.github.com/repos/" ++ owner config ++ lit "/" ++ repo config
  ++ lit "/compare/" ++ mergeBaseCommit ++ lit "..." ++ branchA config.

Definition getRemoteChanges (mergeBaseCommit : jsstring) : M (list FileChange) :=
  try_catch
    (let url := compareUrl mergeBaseCommit in
     response ← axiosGet url (lit "Bearer " ++ accessToken config)
                         (lit "application/vnd.github.v3+json");
     let files := default [] (data_files response) in
     mret ((λ file, {| filename := api_filename file; status := api_status file |})
             <$> files))
    (λ error,
       if isAxiosError error then
         let statusCode := response_status error in
         let message := or_else (response_data_message error) (message error) in
         throw (new_Error (lit "GitHub API error ("
                           ++ template ((λ code, number_to_string (status_number code))
                                          <$> statusCode)
                           ++ lit "): " ++ template message))
       else if instanceof_Error error then
         throw (new_Error (lit "Failed to get remote changes: "
                           ++ template (message error)))
       else
         text ← js_String error;
         throw (new_Error (lit "Failed to get remote changes: " ++ text))).

Definition findPotentialConflicts : M ConflictDetectionResult :=
  try_catch
    (configError ← validateConfig;
     if decide (truthy_value configError) then
       mret {| potentialConflicts := []; mergeBaseCommit := []; error := configError |}
     else
       repoError ← validateLocalRepository;
       if decide (truthy_value repoError) then
         mret {| potentialConflicts := []; mergeBaseCommit := []; error := repoError |}
       else
         mergeBaseCommit ← findMergeBaseCommit;
         localChanges ← getLocalChanges mergeBaseCommit;
         remoteChanges ← getRemoteChanges mergeBaseCommit;
         let potentialConflicts := findCommonChanges localChanges remoteChanges in
         mret {| potentialConflicts := potentialConflicts;
                 mergeBaseCommit := mergeBaseCommit;
                 error := None |})
    (λ error,
       if instanceof_Error error then
         mret {| potentialConflicts := [];
                 mergeBaseCommit := [];
                 error := message error |}
       else
         text ← js_String error;
         mret {| potentialConflicts := [];
                 mergeBaseCommit := [];
                 error := Some text |}).

End methods.
End GitConflictDetector.

Import GitConflictDetector.

(** ** Vocabulary of the properties *)

(** A string of white space. *)
Abbreviation white ws := (Forall (λ c, is_white_space c = true) ws).

(** A trimmed string neither starts nor ends with white space. *)
Definition no_outer_white_space (s : jsstring) : Prop :=
  (∀ c, head s = Some c → is_white_space c = false) ∧
  (∀ c, last s = Some c → is_white_space c = false).

(** Number of times the path [p] occurs in a list of paths. *)
Definition occurrences (p : jsstring) (paths : list jsstring) : nat :=
  length (filter (λ q, q = p) paths).

Definition file1_js : jsstring := lit "file1.js".
Definition file2_js : jsstring := lit "file2.js".
Definition file3_js : jsstring := lit "file3.js".
Definition file4_js : jsstring := lit "file4.js".

(** A blank line: nothing is left of it after trimming. *)
Definition blank (line : jsstring) : Prop := trim line = [].

#[global] Instance blank_dec line : Decision (blank line).
Proof. unfold blank. apply _. Defined.

(** The parser as the specification words it: the blank lines of the
    output are dropped and every other line gives one entry. *)
Definition parseGitDiffOutput_dropping_blank (output : jsstring) : list FileChange :=
  parseDiffLine <$> filter (λ line, ¬ blank line) (split LF output).

Definition tabbed_line : jsstring :=
  lit "M" ++ [TAB] ++ lit "src/file" ++ [TAB] ++ lit "with" ++ [TAB] ++ lit "tabs.js".

Definition white_space_line_output : jsstring :=
  lit "M" ++ [TAB] ++ lit "a.js" ++ [LF; SPACE; LF] ++ lit "A" ++ [TAB] ++ lit "b.js".

(** [String(result)] of what [execSync] returned. *)
Definition exec_output (v : exec_result) : jsstring :=
  match v with
  | ExecString s => s
  | ExecOther as_string => as_string
  end.

(** The calls the class makes. *)
Definition gitRequest (config : GitConflictDetectorConfig) (command : jsstring) : event :=
  ExecSync (lit "git " ++ command) (localRepoPath config).

Definition revParseCommand : jsstring := lit "rev-parse --is-inside-work-tree".
Definition branchListCommand : jsstring := lit "branch --list".

Definition mergeBaseCommand (config : GitConflictDetectorConfig) : jsstring :=
  lit "merge-base " ++ (lit "origin/" ++ branchA config) ++ lit " " ++ branchB config.

Definition diffCommand (config : GitConflictDetectorConfig) (mergeBase : jsstring)
  : jsstring :=
  lit "diff --name-status " ++ mergeBase ++ lit " " ++ branchB config.

Definition compareRequest (config : GitConflictDetectorConfig) (mergeBase : jsstring)
  : event :=
  AxiosGet (compareUrl config mergeBase) (lit "Bearer " ++ accessToken config)
           (lit "application/vnd.github.v3+json").

(** The answer of the command runner to a git command after history [h]. *)
Definition git_answer (env : Env) (config : GitConflictDetectorConfig)
    (h : history) (command : jsstring) : outcome exec_result :=
  child_process_execSync env h (lit "git " ++ command) (localRepoPath config).

(** The answer of the remote service to the comparison after history [h]. *)
Definition compare_answer (env : Env) (config : GitConflictDetectorConfig)
    (h : history) (mergeBase : jsstring) : outcome response :=
  axios_get env h (compareUrl config mergeBase) (lit "Bearer " ++ accessToken config)
            (lit "application/vnd.github.v3+json").

(** The result of every failing path. *)
Definition failure (err : option jsstring) : ConflictDetectionResult :=
  {| potentialConflicts := []; mergeBaseCommit := []; error := err |}.

(** What the boundary makes of a value it catches: the failing result with
    the message of an [Error] or the string of another value; when that
    value has no string, what its conversion throws leaves the function. *)
Definition boundary (e : thrown) : outcome ConflictDetectionResult :=
  if instanceof_Error e then Return (failure (message e))
  else match to_String e with
       | Converted text => Return (failure (Some text))
       | Fault fault => Throw fault
       end.

(** What the repository validator makes of a failure [e] of the git
    command [command]: the message it returns, or what the conversion of
    [e] throws. *)
Definition invalid_repository (config : GitConflictDetectorConfig)
    (command : jsstring) (e : thrown) : outcome (option jsstring) :=
  if instanceof_Error e then
    Return (Some (lit "Invalid git repository at " ++ localRepoPath config ++ lit ": "
                  ++ lit "Git command failed: git " ++ command ++ lit " - "
                  ++ template (message e)))
  else match to_String e with
       | Converted text => Return (Some text)
       | Fault fault => Throw fault
       end.

(** A value that has a string when it is not an [Error]. *)
Definition convertible (e : thrown) : Prop :=
  instanceof_Error e = false → ∃ text, to_String e = Converted text.

(** Every value the command runner throws and every value the remote
    service rejects with is convertible, as the values that Node and
    axios throw are. *)
Definition convertible_faults (env : Env) : Prop :=
  (∀ h command cwd e,
     child_process_execSync env h command cwd = Throw e → convertible e)
  ∧ (∀ h url authorization accept e,
       axios_get env h url authorization accept = Throw e → convertible e).

(** [e] is a value the command runner throws, or one the remote service
    rejects with, at some call. *)
Definition thrown_by (env : Env) (e : thrown) : Prop :=
  (∃ h command cwd, child_process_execSync env h command cwd = Throw e)
  ∨ (∃ h url authorization accept, axios_get env h url authorization accept = Throw e).

(** [fault] is what the conversion of [e] throws, or what the conversion
    of that throws when it is not an [Error] either. *)
Definition conversion_fault (e fault : thrown) : Prop :=
  to_String e = Fault fault
  ∨ ∃ e1, to_String e = Fault e1
          ∧ instanceof_Error e1 = false ∧ to_String e1 = Fault fault.

(** The required fields and the message of each, in the order the
    validator checks them. *)
Definition required_fields (config : GitConflictDetectorConfig)
  : list (jsstring * jsstring) :=
  [ (owner config, lit "Owner is required");
    (repo config, lit "Repository name is required");
    (accessToken config, lit "Access token is required");
    (localRepoPath config, lit "Local repository path is required");
    (branchA config, lit "Branch A name is required");
    (branchB config, lit "Branch B name is required") ].

(** The message of the first required field that is empty, if any. *)
Definition first_missing (config : GitConflictDetectorConfig) : option jsstring :=
  snd <$> List.find (λ field, bool_decide (field.1 = [])) (required_fields config).

(** Both validators pass from the history [h] and leave the history [hv]. *)
Definition validated (env : Env) (config : GitConflictDetectorConfig)
    (h hv : history) : Prop :=
  ∃ configError h1 repoError,
    validateConfig env config h = (Return configError, h1)
    ∧ ¬ truthy_value configError
    ∧ validateLocalRepository env config h1 = (Return repoError, hv)
    ∧ ¬ truthy_value repoError.

(** The paths through [findPotentialConflicts] from the history [h]: the
    stage that ends the run, what the function returns or throws, and the
    history it leaves. *)
Inductive run (env : Env) (config : GitConflictDetectorConfig) (h : history)
  : outcome ConflictDetectionResult → history → Prop :=
| run_config_error msg h1 :
    validateConfig env config h = (Return (Some msg), h1) →
    truthy msg →
    run env config h (Return (failure (Some msg))) h1
| run_repository_error configError h1 msg hv :
    validateConfig env config h = (Return configError, h1) →
    ¬ truthy_value configError →
    validateLocalRepository env config h1 = (Return (Some msg), hv) →
    truthy msg →
    run env config h (Return (failure (Some msg))) hv
| run_repository_fault configError h1 e hv :
    validateConfig env config h = (Return configError, h1) →
    ¬ truthy_value configError →
    validateLocalRepository env config h1 = (Throw e, hv) →
    run env config h (boundary e) hv
| run_merge_base_fault hv e hm :
    validated env config h hv →
    findMergeBaseCommit env config hv = (Throw e, hm) →
    run env config h (boundary e) hm
| run_local_fault hv mergeBase hm e hl :
    validated env config h hv →
    findMergeBaseCommit env config hv = (Return mergeBase, hm) →
    getLocalChanges env config mergeBase hm = (Throw e, hl) →
    run env config h (boundary e) hl
| run_remote_fault hv mergeBase hm localChanges hl e hr :
    validated env config h hv →
    findMergeBaseCommit env config hv = (Return mergeBase, hm) →
    getLocalChanges env config mergeBase hm = (Return localChanges, hl) →
    getRemoteChanges env config mergeBase hl = (Throw e, hr) →
    run env config h (boundary e) hr
| run_success hv mergeBase hm localChanges hl remoteChanges hr :
    validated env config h hv →
    findMergeBaseCommit env config hv = (Return mergeBase, hm) →
    getLocalChanges env config mergeBase hm = (Return localChanges, hl) →
    getRemoteChanges env config mergeBase hl = (Return remoteChanges, hr) →
    run env config h
        (Return {| potentialConflicts := findCommonChanges localChanges remoteChanges;
                   mergeBaseCommit := mergeBase;
                   error := None |}) hr.

(** A request made by a collector: the diff of some commit against branch
    B, or the comparison of some commit with branch A. *)
Definition collector_request (config : GitConflictDetectorConfig) (ev : event) : Prop :=
  ∃ mergeBase,
    ev = gitRequest config (diffCommand config mergeBase)
    ∨ ev = compareRequest config mergeBase.

(** No request of the list is a collector request. *)
Definition quiet (config : GitConflictDetectorConfig) (events : list event) : Prop :=
  Forall (λ ev, ¬ collector_request config ev) events.

(** ** A sample world, after the mocks of the test suite *)

Definition sample_config : GitConflictDetectorConfig :=
  {| owner := lit "test-owner";
     repo := lit "test-repo";
     accessToken := lit "test-token";
     localRepoPath := lit "/path/to/repo";
     branchA := lit "branchA";
     branchB := lit "branchB" |}.

Definition sample_diff : jsstring :=
  lit "M" ++ [TAB] ++ lit "src/file1.js" ++ [LF]
  ++ lit "A" ++ [TAB] ++ lit "src/file2.js" ++ [LF]
  ++ lit "D" ++ [TAB] ++ lit "src/file3.js".

(** The command runner of the tests: the answer depends on the command
    alone; [mergeBaseOutput] is what [git merge-base] prints. *)
Definition sample_execSync (mergeBaseOutput : jsstring)
    (_ : history) (command _cwd : jsstring) : outcome exec_result :=
  Return (ExecString
    (if includes command (lit "rev-parse") then lit "true"
     else if includes command (lit "branch --list") then
       lit "* branchA" ++ [LF] ++ lit "  branchB"
     else if includes command (lit "merge-base") then mergeBaseOutput
     else if includes command (lit "diff --name-status") then sample_diff
     else [])).

Definition sample_files : list api_file :=
  [ {| api_sha := lit "bbcd538c"; api_filename := lit "src/file1.js";
       api_status := lit "modified"; api_changes := 3 |};
    {| api_sha := lit "1e3ce0a2"; api_filename := lit "src/file4.js";
       api_status := lit "added"; api_changes := 12 |} ].

Definition sample_env (present : bool) (mergeBaseOutput : jsstring)
    (answer : outcome response) : Env :=
  {| fs_existsSync := λ _ _, present;
     child_process_execSync := sample_execSync mergeBaseOutput;
     axios_get := λ _ _ _ _, answer |}.

Definition sample_merge_base : jsstring := lit "mergebasecommithash123".

(** The history the validators leave in the sample world. *)
Definition sample_validated_history : history :=
  [ ExistsSync (lit "/path/to/repo");
    gitRequest sample_config revParseCommand;
    gitRequest sample_config branchListCommand ].

(** The rejections of the test suite: [{isAxiosError: true, message:
    'Network Error'}], without a response, and [{isAxiosError: true,
    response: {status: 404, data: {message: 'Not Found'}}}]. Both are
    plain objects. *)
Definition network_error : thrown :=
  {| nature := NotAnError (Some (lit "Network Error"));
     to_String := Converted (lit "[object Object]");
     isAxiosError := true;
     response_status := None;
     response_data_message := None |}.

Definition not_found_error : thrown :=
  {| nature := NotAnError None;
     to_String := Converted (lit "[object Object]");
     isAxiosError := true;
     response_status := Some (StatusCode 404 I);
     response_data_message := Some (lit "Not Found") |}.

(** The entry the remote collector makes of an entry of the [files] array. *)
Definition remote_change (file : api_file) : FileChange :=
  {| filename := api_filename file; status := api_status file |}.

(** A command runner on which every command fails with
    [new Error('Permission denied')]. *)
Definition denied_env : Env :=
  {| fs_existsSync := λ _ _, true;
     child_process_execSync := λ _ _ _, Throw (new_Error (lit "Permission denied"));
     axios_get := λ _ _ _ _, Return {| data_files := None |} |}.

(** ** The formats the parsers read *)

(** The line [git diff --name-status] prints for a change, and its output
    for a list of changes. *)
Definition renderDiffLine (change : FileChange) : jsstring :=
  status change ++ [TAB] ++ filename change.

Definition renderDiff (changes : list FileChange) : jsstring :=
  join [LF] (renderDiffLine <$> changes).

(** A change the format can carry: the kind is not empty, has no tab or
    newline and does not start with white space; the path is not empty,
    has no newline and does not end with white space. *)
Definition well_formed_change (change : FileChange) : Prop :=
  status change ≠ [] ∧ (TAB ∉ status change) ∧ (LF ∉ status change)
  ∧ (∀ c, head (status change) = Some c → is_white_space c = false)
  ∧ filename change ≠ [] ∧ (LF ∉ filename change)
  ∧ (∀ c, last (filename change) = Some c → is_white_space c = false).

(** A line that survives trimming and splitting as it is. *)
Definition tidy_line (line : jsstring) : Prop :=
  line ≠ [] ∧ (LF ∉ line) ∧ no_outer_white_space line.

(** The line [git branch --list] prints for a branch (a star and a space
    before the checked-out branch, two spaces before any other), and its
    output for a list of branches: every line ends with a newline. *)
Definition renderBranchLine (branch : bool * jsstring) : jsstring :=
  (if branch.1 then [STAR; SPACE] else [SPACE; SPACE]) ++ branch.2.

Definition renderBranchList (branches : list (bool * jsstring)) : jsstring :=
  concat ((λ branch, renderBranchLine branch ++ [LF]) <$> branches).

(** A branch name the listing can carry: not empty, without newline,
    without white space at either end, and not starting with a star. *)
Definition well_formed_branch (name : jsstring) : Prop :=
  name ≠ [] ∧ (LF ∉ name) ∧ no_outer_white_space name ∧ head name ≠ Some STAR.

(** The six required fields are all there. *)
Definition all_fields_present (config : GitConflictDetectorConfig) : Prop :=
  owner config ≠ [] ∧ repo config ≠ [] ∧ accessToken config ≠ []
  ∧ localRepoPath config ≠ [] ∧ branchA config ≠ [] ∧ branchB config ≠ [].

(** The calls of a complete run, for the merge-base identifier [mergeBase]. *)
Definition full_trace (config : GitConflictDetectorConfig) (mergeBase : jsstring)
  : history :=
  [ ExistsSync (localRepoPath config);
    gitRequest config revParseCommand;
    gitRequest config branchListCommand;
    gitRequest config (mergeBaseCommand config);
    gitRequest config (diffCommand config mergeBase);
    compareRequest config mergeBase ].

(** What tells the calls of a run apart: the collaborator and, for a git
    command, the first letter of the command after [git ]. *)
Definition event_kind (ev : event) : N :=
  match ev with
  | ExistsSync _ => 0
  | AxiosGet _ _ _ => 1
  | ExecSync command _ => 2 + default 0 (command !! 4%nat)
  end.

(** The same without the branch listing. *)
Definition trace_without_listing (config : GitConflictDetectorConfig)
    (mergeBase : jsstring) : history :=
  [ ExistsSync (localRepoPath config);
    gitRequest config revParseCommand;
    gitRequest config (mergeBaseCommand config);
    gitRequest config (diffCommand config mergeBase);
    compareRequest config mergeBase ].

(** A command runner on which [git rev-parse] throws the empty string
    ([throw '']) and every other command answers as in the sample world. *)
Definition empty_string_thrown : thrown :=
  {| nature := NotAnError None;
     to_String := Converted [];
     isAxiosError := false;
     response_status := None;
     response_data_message := None |}.

Definition empty_throw_env : Env :=
  {| fs_existsSync := λ _ _, true;
     child_process_execSync := λ h command cwd,
       if includes command (lit "rev-parse") then Throw empty_string_thrown
       else sample_execSync sample_merge_base h command cwd;
     axios_get := λ _ _ _ _, Return {| data_files := Some sample_files |} |}.

(** [new TypeError(msg)] *)
Definition new_TypeError (msg : jsstring) : thrown :=
  {| nature := AnError msg;
     to_String := Converted (lit "TypeError: " ++ msg);
     isAxiosError := false;
     response_status := None;
     response_data_message := None |}.

(** The value [Object.create(null)]: not an [Error], and [String] cannot
    convert it but throws a [TypeError]. *)
Definition bare_object : thrown :=
  {| nature := NotAnError None;
     to_String := Fault (new_TypeError (lit "Cannot convert object to primitive value"));
     isAxiosError := false;
     response_status := None;
     response_data_message := None |}.

(** A command runner on which the commands that contain [word] throw
    [e] and every other command answers as in the sample world. *)
Definition failing_env (word : jsstring) (e : thrown) : Env :=
  {| fs_existsSync := λ _ _, true;
     child_process_execSync := λ h command cwd,
       if includes command word then Throw e
       else sample_execSync sample_merge_base h command cwd;
     axios_get := λ _ _ _ _, Return {| data_files := Some sample_files |} |}.

(** * The command line: [parseArgs] and [main] of [src/cli.ts] *)

(** The options, as yargs hands them over: [--token], [--token-file] and
    [--output-file] may be absent. *)
Record Argv := {
  argv_owner : jsstring;
  argv_repo : jsstring;
  argv_token : option jsstring;
  argv_token_file : option jsstring;
  argv_path : jsstring;
  argv_branch_a : jsstring;
  argv_branch_b : jsstring;
  argv_output : jsstring;
  argv_output_file : option jsstring
}.

(** What a run of [main] does, in order. [YargsOutput] is the text yargs
    prints when it ends the run on its own, [YargsFail] its report of a
    failed [check] (the usage and the message, on the error console);
    [Detection] stands for the call of [findPotentialConflicts] with the
    calls it makes; [process.exit] ends the run. *)
Inductive cli_event :=
| YargsOutput
| YargsFail (error : thrown)
| ReadFileSync (path : jsstring)
| Detection (config : GitConflictDetectorConfig) (calls : history)
| ConsoleError (text : jsstring)
| ConsoleErrorUnexpected (error : thrown)
| ConsoleLog (text : jsstring)
| WriteFileSync (path data : jsstring)
| ProcessExit (code : N).

(** What yargs makes of the command line before it runs the [check]: it
    ends the process itself, after printing its own text ([--help] and
    [--version] with status 0, a command line that does not fit the
    declared options with status 1), or it has the options. *)
Inductive yargs_result :=
| YargsExit (code : N)
| YargsOptions (argv : Argv).

(** The world of [main]: the command line as yargs reads it, the world of
    the detector, [fs.readFileSync] and [fs.writeFileSync] (which returns
    nothing, or throws), and [JSON.stringify(result, null, 2)], which
    belongs to the language. *)
Record CliEnv := {
  yargs_parseSync : yargs_result;
  detector_env : Env;
  fs_readFileSync : jsstring → outcome jsstring;
  fs_writeFileSync : jsstring → jsstring → option thrown;
  JSON_stringify : ConflictDetectionResult → jsstring
}.

(** The text report: the [else] branch of "Format output". *)
Definition formatText (result : ConflictDetectionResult) : jsstring :=
  let output := lit "Merge base commit: " ++ mergeBaseCommit result ++ [LF] in
  let output :=
    output ++ lit "Found "
    ++ number_to_string (N.of_nat (length (potentialConflicts result)))
    ++ lit " potential conflicts:" ++ [LF] in
  if decide (0 < length (potentialConflicts result))%nat then
    foldl (λ output file, output ++ lit "- " ++ file ++ [LF]) output
          (potentialConflicts result)
  else output ++ lit "No potential conflicts found." ++ [LF].

(** The configuration [main] builds. An absent token reaches the detector
    as [undefined]; the detector only tests it for truthiness before any
    use, as it does the empty string, which stands for it here. *)
Definition cliConfig (argv : Argv) (accessToken : option jsstring)
  : GitConflictDetectorConfig :=
  {| owner := argv_owner argv;
     repo := argv_repo argv;
     accessToken := default [] accessToken;
     localRepoPath := argv_path argv;
     branchA := argv_branch_a argv;
     branchB := argv_branch_b argv |}.

(** [main] from "Create detector instance" on, with the token settled. *)
Definition detectAndReport (cli : CliEnv) (argv : Argv)
    (accessToken : option jsstring) : list cli_event :=
  let config := cliConfig argv accessToken in
  match findPotentialConflicts (detector_env cli) config [] with
  | (Throw error, calls) =>
      [Detection config calls; ConsoleErrorUnexpected error; ProcessExit 1]
  | (Return result, calls) =>
      if decide (truthy_value (error result)) then
        [Detection config calls;
         ConsoleError (lit "Error: " ++ template (error result));
         ProcessExit 1]
      else
        let output :=
          if decide (argv_output argv = lit "json") then JSON_stringify cli result
          else formatText result in
        match argv_output_file argv with
        | Some path =>
            if decide (truthy path) then
              match fs_writeFileSync cli path output with
              | None =>
                  [Detection config calls; WriteFileSync path output;
                   ConsoleLog (lit "Output written to " ++ path)]
              | Some error =>
                  [Detection config calls; WriteFileSync path output;
                   ConsoleErrorUnexpected error; ProcessExit 1]
              end
            else [Detection config calls; ConsoleLog output]
        | None => [Detection config calls; ConsoleLog output]
        end
  end.

(** [main] from "Get GitHub token from file if provided" on. *)
Definition readTokenAndRun (cli : CliEnv) (argv : Argv) : list cli_event :=
  match argv_token_file argv with
  | Some path =>
      if decide (truthy path) then
        match fs_readFileSync cli path with
        | Return content =>
            ReadFileSync path :: detectAndReport cli argv (Some (trim content))
        | Throw error =>
            [ReadFileSync path;
             ConsoleError (lit "Error reading token file: " ++ template (message error));
             ProcessExit 1]
        end
      else detectAndReport cli argv (argv_token argv)
  | None => detectAndReport cli argv (argv_token argv)
  end.

(** The callback of [.check]. *)
Definition check (argv : Argv) : outcome bool :=
  if decide (¬ truthy_value (argv_token argv) ∧ ¬ truthy_value (argv_token_file argv))
  then Throw (new_Error (lit "Either --token or --token-file must be provided"))
  else Return true.

(** [parseArgs]: the options, or the events with which yargs ends the
    run. A [check] that throws makes yargs report the failure and leave
    with status 1. *)
Definition parseArgs (cli : CliEnv) : list cli_event + Argv :=
  match yargs_parseSync cli with
  | YargsExit code => inl [YargsOutput; ProcessExit code]
  | YargsOptions argv =>
      match check argv with
      | Return _ => inr argv
      | Throw error => inl [YargsFail error; ProcessExit 1]
      end
  end.

(** [main] *)
Definition main (cli : CliEnv) : list cli_event :=
  match parseArgs cli with
  | inl ended => ended
  | inr argv => readTokenAndRun cli argv
  end.

Definition is_exit (ev : cli_event) : Prop :=
  match ev with ProcessExit _ => True | _ => False end.

Definition is_stderr (ev : cli_event) : Prop :=
  match ev with ConsoleError _ | ConsoleErrorUnexpected _ => True | _ => False end.

Definition is_detection (ev : cli_event) : Prop :=
  match ev with Detection _ _ => True | _ => False end.

#[global] Instance is_detection_dec ev : Decision (is_detection ev).
Proof. destruct ev; simpl; apply _. Defined.

Definition is_log (ev : cli_event) : Prop :=
  match ev with ConsoleLog _ => True | _ => False end.

(** An event that is neither an exit nor a line on either console. *)
Definition silent (ev : cli_event) : Prop :=
  ¬ is_exit ev ∧ ¬ is_stderr ev ∧ ¬ is_log ev.

(** The sample command line and its world. *)
Definition sample_argv : Argv :=
  {| argv_owner := lit "test-owner";
     argv_repo := lit "test-repo";
     argv_token := Some (lit "stale-token");
     argv_token_file := Some (lit "token.txt");
     argv_path := lit "/path/to/repo";
     argv_branch_a := lit "branchA";
     argv_branch_b := lit "branchB";
     argv_output := lit "text";
     argv_output_file := None |}.

Definition sample_cli : CliEnv :=
  {| yargs_parseSync := YargsOptions sample_argv;
     detector_env :=
       sample_env true sample_merge_base (Return {| data_files := Some sample_files |});
     fs_readFileSync := λ _, Return (lit "test-token" ++ [LF]);
     fs_writeFileSync := λ _ _, None;
     JSON_stringify := λ _, [] |}.

(** A world in which the output file cannot be written, and a command
    line that asks for one. *)
Definition output_file_argv : Argv :=
  {| argv_owner := lit "test-owner";
     argv_repo := lit "test-repo";
     argv_token := Some (lit "test-token");
     argv_token_file := None;
     argv_path := lit "/path/to/repo";
     argv_branch_a := lit "branchA";
     argv_branch_b := lit "branchB";
     argv_output := lit "text";
     argv_output_file := Some (lit "report.txt") |}.

Definition unwritable_cli : CliEnv :=
  {| yargs_parseSync := YargsOptions output_file_argv;
     detector_env :=
       sample_env true sample_merge_base (Return {| data_files := Some sample_files |});
     fs_readFileSync := λ _, Return (lit "test-token" ++ [LF]);
     fs_writeFileSync := λ _ _, Some (new_Error (lit "EACCES: permission denied"));
     JSON_stringify := λ _, [] |}.

(** A world whose token file holds white space only. *)
Definition blank_token_cli : CliEnv :=
  {| yargs_parseSync := YargsOptions sample_argv;
     detector_env :=
       sample_env true sample_merge_base (Return {| data_files := Some sample_files |});
     fs_readFileSync := λ _, Return [SPACE; SPACE; LF];
     fs_writeFileSync := λ _ _, None;
     JSON_stringify := λ _, [] |}.

(** A command line without a token and without a token file. *)
Definition no_token_argv : Argv :=
  {| argv_owner := lit "test-owner";
     argv_repo := lit "test-repo";
     argv_token := None;
     argv_token_file := None;
     argv_path := lit "/path/to/repo";
     argv_branch_a := lit "branchA";
     argv_branch_b := lit "branchB";
     argv_output := lit "text";
     argv_output_file := None |}.

Definition no_token_cli : CliEnv :=
  {| yargs_parseSync := YargsOptions no_token_argv;
     detector_env :=
       sample_env true sample_merge_base (Return {| data_files := Some sample_files |});
     fs_readFileSync := λ _, Return (lit "test-token" ++ [LF]);
     fs_writeFileSync := λ _ _, None;
     JSON_stringify := λ _, [] |}.

Definition sample_result : ConflictDetectionResult :=
  {| potentialConflicts := [lit "src/file1.js"; lit "docs/a b.md"];
     mergeBaseCommit := lit "mergebasecommithash123";
     error := None |}.

(** The lines of the text report. *)
Definition report_lines (result : ConflictDetectionResult) : list jsstring :=
  [ lit "Merge base commit: " ++ mergeBaseCommit result;
    lit "Found " ++ number_to_string (N.of_nat (length (potentialConflicts result)))
    ++ lit " potential conflicts:" ]
  ++ match potentialConflicts result with
     | [] => [lit "No potential conflicts found."]
     | paths => (λ file, lit "- " ++ file) <$> paths
     end.
(** * Properties *)

(** ** Strings *)

Lemma lit_app (a b : string) : lit (a +:+ b) = lit a ++ lit b.
Proof.
  unfold lit. induction a as [|c a IH]; simpl; [done|].
  f_equal. apply IH.
Qed.

Lemma lit_String (a : ascii) (s : string) : lit (String a s) = N_of_ascii a :: lit s.
Proof. done. Qed.

#[global] Opaque lit.

Lemma split_nonempty sep s : split sep s ≠ [].
Proof.
  destruct s as [|c s]; simpl; [done|].
  case_decide; [done|]. by destruct (split sep s).
Qed.

(** Joining the fields of a split restores the string. *)
Lemma join_split sep s : join [sep] (split sep s) = s.
Proof.
  induction s as [|c s IH]; simpl; [done|].
  case_decide as Hc.
  - subst c. pose proof (split_nonempty sep s) as Hne.
    destruct (split sep s) as [|f fs]; [done|].
    simpl in *. by rewrite IH.
  - destruct (split sep s) as [|f fs] eqn:Hs.
    + by destruct (split_nonempty sep s).
    + rewrite <- IH. by destruct fs.
Qed.

(** No field of a split contains the separator. *)
Lemma split_fields_free sep s field : field ∈ split sep s → sep ∉ field.
Proof.
  revert field. induction s as [|c s IH]; simpl; intros field Hin.
  - apply list_elem_of_singleton in Hin as ->. apply not_elem_of_nil.
  - case_decide as Hc.
    + apply elem_of_cons in Hin as [->|Hin]; [apply not_elem_of_nil|by apply IH].
    + destruct (split sep s) as [|f fs] eqn:Hs.
      * apply list_elem_of_singleton in Hin as ->.
        intros [->|Hin]%elem_of_cons; [done|]. by apply not_elem_of_nil in Hin.
      * apply elem_of_cons in Hin as [->|Hin].
        -- intros [->|Hin]%elem_of_cons; [done|].
           apply (IH f); [left|done].
        -- apply IH. by right.
Qed.

(** A string without the separator is a single field. *)
Lemma split_free sep s : sep ∉ s → split sep s = [s].
Proof.
  induction s as [|c s IH]; simpl; intros Hfree; [done|].
  apply not_elem_of_cons in Hfree as [Hc Hs].
  rewrite decide_False by done. by rewrite IH.
Qed.

Lemma trimStart_suffix s : ∃ ws, s = ws ++ trimStart s ∧ white ws.
Proof.
  induction s as [|c s (ws & Hs & Hws)]; simpl.
  - by exists [].
  - destruct (is_white_space c) eqn:Hc.
    + exists (c :: ws). split; [by rewrite <- app_comm_cons, <- Hs|by constructor].
    + by exists [].
Qed.

Lemma trimStart_head s c : head (trimStart s) = Some c → is_white_space c = false.
Proof.
  induction s as [|d s IH]; simpl; [done|].
  destruct (is_white_space d) eqn:Hd; [done|].
  simpl. by intros [= ->].
Qed.

Lemma trimStart_id s :
  (∀ c, head s = Some c → is_white_space c = false) → trimStart s = s.
Proof.
  destruct s as [|c s]; simpl; [done|].
  intros H. by rewrite (H c).
Qed.

Lemma trimStart_app_white ws s : white ws → trimStart (ws ++ s) = trimStart s.
Proof. induction 1 as [|c ws Hc _ IH]; simpl; [done|]. by rewrite Hc. Qed.

Lemma trimStart_nil_iff s : trimStart s = [] ↔ white s.
Proof.
  induction s as [|c s IH]; simpl; [by split|].
  destruct (is_white_space c) eqn:Hc.
  - rewrite IH. split; [by constructor|by inversion 1].
  - split; [done|]. inversion 1; congruence.
Qed.

Lemma trimEnd_last s c : last (trimEnd s) = Some c → is_white_space c = false.
Proof.
  unfold trimEnd. rewrite last_reverse. apply trimStart_head.
Qed.

(** Trimming the end keeps the first code unit. *)
Lemma trimEnd_head s c :
  head (trimEnd s) = Some c → head s = Some c.
Proof.
  unfold trimEnd.
  destruct (trimStart_suffix (reverse s)) as (ws & Hs & _).
  apply (f_equal reverse) in Hs. rewrite reverse_involutive, reverse_app in Hs.
  rewrite Hs at 2.
  destruct (reverse (trimStart (reverse s))); simpl; [done|]. done.
Qed.


Lemma trim_no_outer_white_space s : no_outer_white_space (trim s).
Proof.
  split; intros c Hc.
  - apply trimEnd_head in Hc. by apply trimStart_head in Hc.
  - by apply trimEnd_last in Hc.
Qed.

Lemma trimEnd_id s :
  (∀ c, last s = Some c → is_white_space c = false) → trimEnd s = s.
Proof.
  intros H. unfold trimEnd. rewrite trimStart_id, reverse_involutive; [done|].
  intros c Hc. apply H. by rewrite <- head_reverse.
Qed.

Lemma trim_id s : no_outer_white_space s → trim s = s.
Proof.
  intros [Hh Hl]. unfold trim. rewrite (trimStart_id s) by done. by apply trimEnd_id.
Qed.

Lemma trim_idemp s : trim (trim s) = trim s.
Proof. apply trim_id, trim_no_outer_white_space. Qed.

Lemma starts_with_app needle s : starts_with needle (needle ++ s) = true.
Proof.
  induction needle as [|a needle IH]; simpl; [done|].
  by rewrite bool_decide_eq_true_2, IH.
Qed.

Lemma includes_starts_with s needle :
  starts_with needle s = true → includes s needle = true.
Proof. destruct s; simpl; by intros ->. Qed.

Lemma includes_app s1 needle s2 : includes (s1 ++ needle ++ s2) needle = true.
Proof.
  induction s1 as [|c s1 IH]; simpl.
  - apply includes_starts_with, starts_with_app.
  - rewrite IH. apply orb_true_r.
Qed.

Lemma includes_prefix needle s : includes (needle ++ s) needle = true.
Proof. apply (includes_app [] needle s). Qed.

(** ** The conflict intersector *)


(** The hashed membership test agrees with membership in the list of
    local filenames. *)
Lemma findCommonChanges_filter (L R : list FileChange) :
  findCommonChanges L R
  = filename <$> filter (λ change, filename change ∈ filename <$> L) R.
Proof.
  unfold findCommonChanges. f_equal.
  apply list_filter_iff. intros change. by rewrite elem_of_list_to_set.
Qed.

Lemma occurrences_filter_elem_of (names : list jsstring) (p : jsstring)
    (R : list FileChange) :
  occurrences p (filename <$> filter (λ change, filename change ∈ names) R)
  = if decide (p ∈ names) then occurrences p (filename <$> R) else 0%nat.
Proof.
  unfold occurrences.
  induction R as [|c R IH].
  - by case_decide.
  - rewrite fmap_cons, !filter_cons.
    destruct (decide (filename c ∈ names)) as [HP|HP],
             (decide (filename c = p)) as [E|E];
      rewrite ?fmap_cons, ?filter_cons, ?decide_True, ?decide_False by done;
      simpl; rewrite IH; destruct (decide (p ∈ names)) as [HQ|HQ]; try done.
    + by subst p.
    + by subst p.
Qed.


(** C1. [findCommonChanges L R] is the list of filenames of the entries of
    [R] whose filename is a filename of [L]: in the order of [R] (it is a
    sublist of [R]'s filenames), every matching path as often as [R] has
    it, and nothing else. Local paths file1.js, file2.js, file3.js against
    remote file1.js (modified), file4.js (added) give exactly [file1.js],
    and the result is empty exactly when no remote path is a local path. *)
Theorem findCommonChanges_remote_order_duplicates (L R : list FileChange) :
  findCommonChanges L R
    = filename <$> filter (λ change, filename change ∈ filename <$> L) R
  ∧ findCommonChanges L R `sublist_of` (filename <$> R)
  ∧ (∀ p, occurrences p (findCommonChanges L R)
          = if decide (p ∈ filename <$> L)
            then occurrences p (filename <$> R) else 0%nat)
  ∧ (findCommonChanges L R = []
     ↔ ∀ change, change ∈ R → filename change ∉ filename <$> L)
  ∧ (∀ k1 k2 k3,
       findCommonChanges
         [ {| filename := file1_js; status := k1 |};
           {| filename := file2_js; status := k2 |};
           {| filename := file3_js; status := k3 |} ]
         [ {| filename := file1_js; status := lit "modified" |};
           {| filename := file4_js; status := lit "added" |} ]
       = [file1_js]).
Proof.
  rewrite findCommonChanges_filter.
  split; [done|]. split; [|split; [|split; [split|]]].
  - apply fmap_sublist, sublist_filter.
  - intros p. apply occurrences_filter_elem_of.
  - intros Hnil change Hin Hmem.
    apply fmap_nil_inv in Hnil.
    assert (change ∈ filter (λ c, filename c ∈ filename <$> L) R) as Hf
      by by apply list_elem_of_filter.
    rewrite Hnil in Hf. by apply not_elem_of_nil in Hf.
  - intros Hdisj. induction R as [|change R IH]; [done|].
    rewrite filter_cons, decide_False by (apply Hdisj; left).
    apply IH. intros c Hc. apply Hdisj. by right.
  - intros k1 k2 k3. rewrite findCommonChanges_filter. by vm_compute.
Qed.

(** The order is the remote list's, not the local list's, and a path the
    remote list reports twice is reported twice. *)
Example findCommonChanges_keeps_remote_duplicates :
  findCommonChanges
    [ {| filename := file1_js; status := lit "M" |};
      {| filename := file2_js; status := lit "A" |} ]
    [ {| filename := file2_js; status := lit "renamed" |};
      {| filename := file4_js; status := lit "added" |};
      {| filename := file1_js; status := lit "modified" |};
      {| filename := file2_js; status := lit "modified" |} ]
  = [file2_js; file1_js; file2_js].
Proof. rewrite findCommonChanges_filter. by vm_compute. Qed.

(** ** The diff parser *)


Lemma join_cons_cons sep p q ps :
  join sep (p :: q :: ps) = p ++ sep ++ join sep (q :: ps).
Proof. done. Qed.

(** The fields of one entry: the kind is what precedes the first tab of
    the trimmed line, the path is all that follows it. *)
Lemma parseDiffLine_fields line :
  let entry := parseDiffLine line in
  (TAB ∉ status entry)
  ∧ (TAB ∉ trim line → status entry = trim line ∧ filename entry = [])
  ∧ (TAB ∈ trim line → trim line = status entry ++ [TAB] ++ filename entry).
Proof.
  unfold parseDiffLine.
  pose proof (join_split TAB (trim line)) as Hjoin.
  pose proof (split_fields_free TAB (trim line)) as Hfree.
  destruct (split TAB (trim line)) as [|kind parts] eqn:Hsplit.
  { by destruct (split_nonempty TAB (trim line)). }
  simpl. split; [apply Hfree; left|]. split.
  - intros Hno. apply split_free in Hno. rewrite Hsplit in Hno.
    by simplify_eq.
  - intros Hin. destruct parts as [|q ps].
    + simpl in Hjoin. subst kind. destruct (Hfree (trim line)); [left|done].
    + by rewrite join_cons_cons in Hjoin.
Qed.


(** *** Agreement with dropping the blank lines *)

(** The lines of two strings put end to end: the last line of the first
    and the first line of the second become one line. *)
Lemma split_app sep a b fs f g gs :
  split sep a = fs ++ [f] → split sep b = g :: gs →
  split sep (a ++ b) = fs ++ (f ++ g) :: gs.
Proof.
  revert fs f. induction a as [|c a IH]; intros fs f Ha Hb.
  - simpl in Ha. destruct fs as [|? [|? ?]]; simplify_eq/=. done.
  - simpl in *. destruct (decide (c = sep)) as [->|Hc].
    + destruct fs as [|f0 fs]; simplify_eq/=.
      { by destruct (split_nonempty sep a). }
      by rewrite (IH fs f).
    + destruct (split sep a) as [|h t] eqn:Hsplit.
      { by destruct (split_nonempty sep a). }
      destruct fs as [|f0 fs]; simplify_eq/=.
      * by rewrite (IH [] h).
      * by rewrite (IH (h :: fs) f).
Qed.

Lemma split_last sep s : ∃ fs f, split sep s = fs ++ [f].
Proof.
  pose proof (split_nonempty sep s) as Hne.
  destruct (split sep s) as [|x l] using rev_ind; [done|]. by eexists _, _.
Qed.

Lemma split_fields_white sep ws field : white ws → field ∈ split sep ws → white field.
Proof.
  intros Hws. revert field. induction Hws as [|c ws Hc Hws IH]; simpl; intros field Hin.
  - apply list_elem_of_singleton in Hin as ->. constructor.
  - case_decide.
    + apply elem_of_cons in Hin as [->|Hin]; [constructor|by apply IH].
    + destruct (split sep ws) as [|f fs] eqn:Hs.
      * apply list_elem_of_singleton in Hin as ->. by repeat constructor.
      * apply elem_of_cons in Hin as [->|Hin].
        -- constructor; [done|]. apply IH. by left.
        -- apply IH. by right.
Qed.

Lemma trimStart_white ws : white ws → trimStart ws = [].
Proof. by intros ?%trimStart_nil_iff. Qed.

Lemma trim_white ws : white ws → trim ws = [].
Proof. intros Hws. unfold trim. by rewrite trimStart_white. Qed.

Lemma trim_app_white_l ws s : white ws → trim (ws ++ s) = trim s.
Proof. intros Hws. unfold trim. by rewrite trimStart_app_white. Qed.

Lemma trimEnd_app_white s ws : white ws → trimEnd (s ++ ws) = trimEnd s.
Proof.
  intros Hws. unfold trimEnd. rewrite reverse_app, trimStart_app_white; [done|].
  by apply Forall_reverse.
Qed.

Lemma trim_app_white_r s ws : white ws → trim (s ++ ws) = trim s.
Proof.
  intros Hws. unfold trim.
  destruct (trimStart_suffix s) as (ws' & Hs & Hws').
  destruct (trimStart s) as [|c r] eqn:Hstart.
  - rewrite app_nil_r in Hs. subst ws'. rewrite trimStart_white; [done|].
    by apply Forall_app.
  - rewrite Hs at 1. rewrite <- app_assoc, trimStart_app_white by done.
    rewrite <- app_comm_cons. simpl.
    rewrite (trimStart_head s c) by by rewrite Hstart.
    by rewrite app_comm_cons, trimEnd_app_white.
Qed.

Lemma trim_decompose s : ∃ w1 w2, s = w1 ++ trim s ++ w2 ∧ white w1 ∧ white w2.
Proof.
  destruct (trimStart_suffix s) as (w1 & Hs & Hw1).
  destruct (trimStart_suffix (reverse (trimStart s))) as (w2 & Hr & Hw2).
  exists w1, (reverse w2). split; [|split; [done|by apply Forall_reverse]].
  rewrite Hs at 1. f_equal. unfold trim, trimEnd.
  rewrite <- reverse_app, <- Hr. by rewrite reverse_involutive.
Qed.

Lemma parseDiffLine_trim line line' :
  trim line = trim line' → parseDiffLine line = parseDiffLine line'.
Proof. unfold parseDiffLine. by intros ->. Qed.

Lemma dropping_blank_lines_blank lines :
  Forall blank lines → filter (λ line, ¬ blank line) lines = [].
Proof.
  induction 1 as [|line lines Hline _ IH]; [done|].
  rewrite filter_cons, decide_False; [done|]. by intros Hn.
Qed.

Lemma dropping_blank_cons_trim line line' lines :
  trim line = trim line' →
  parseDiffLine <$> filter (λ l, ¬ blank l) (line :: lines)
  = parseDiffLine <$> filter (λ l, ¬ blank l) (line' :: lines).
Proof.
  intros Ht. rewrite !filter_cons.
  destruct (decide (¬ blank line)) as [H1|H1], (decide (¬ blank line')) as [H2|H2];
    unfold blank in H1, H2; rewrite Ht in H1; try done.
  rewrite !fmap_cons. f_equal. by apply parseDiffLine_trim.
Qed.

Lemma white_lines_blank sep ws : white ws → Forall blank (split sep ws).
Proof.
  intros Hws. apply Forall_forall. intros field Hin.
  by apply trim_white, (split_fields_white sep ws).
Qed.

Lemma dropping_blank_app_white_l ws s :
  white ws →
  parseGitDiffOutput_dropping_blank (ws ++ s) = parseGitDiffOutput_dropping_blank s.
Proof.
  intros Hws. unfold parseGitDiffOutput_dropping_blank.
  destruct (split_last LF ws) as (fs & f & Hsplit).
  pose proof (white_lines_blank LF ws Hws) as Hblank. rewrite Hsplit in Hblank.
  apply Forall_app in Hblank as [Hfs Hf].
  destruct (split LF s) as [|g gs] eqn:Hs; [by destruct (split_nonempty LF s)|].
  rewrite (split_app LF ws s fs f g gs Hsplit Hs).
  rewrite filter_app, dropping_blank_lines_blank by done. simpl.
  apply dropping_blank_cons_trim, trim_app_white_l.
  apply (split_fields_white LF ws); [done|]. rewrite Hsplit.
  apply elem_of_app. right. by left.
Qed.

Lemma dropping_blank_app_white_r s ws :
  white ws →
  parseGitDiffOutput_dropping_blank (s ++ ws) = parseGitDiffOutput_dropping_blank s.
Proof.
  intros Hws. unfold parseGitDiffOutput_dropping_blank.
  destruct (split_last LF s) as (fs & f & Hsplit).
  pose proof (white_lines_blank LF ws Hws) as Hblank.
  pose proof (split_fields_white LF ws) as Hfields.
  destruct (split LF ws) as [|g gs] eqn:Hs; [by destruct (split_nonempty LF ws)|].
  apply Forall_cons in Hblank as [Hg Hgs].
  rewrite (split_app LF s ws fs f g gs Hsplit Hs), Hsplit.
  rewrite !filter_app, !fmap_app. f_equal.
  assert (trim (f ++ g) = trim f) as Ht
    by (apply trim_app_white_r, Hfields; [done|by left]).
  rewrite (dropping_blank_cons_trim (f ++ g) f gs Ht).
  by rewrite !filter_cons, (dropping_blank_lines_blank gs), filter_nil.
Qed.

(** Trimming the whole output first makes no difference when the blank
    lines are dropped. *)
Lemma dropping_blank_trim output :
  parseGitDiffOutput_dropping_blank (trim output)
  = parseGitDiffOutput_dropping_blank output.
Proof.
  destruct (trim_decompose output) as (w1 & w2 & Ho & Hw1 & Hw2).
  rewrite Ho at 2.
  by rewrite dropping_blank_app_white_l, dropping_blank_app_white_r.
Qed.

(** The parser drops the blank lines, provided no line of the trimmed
    output is made of white space alone. *)
Lemma parseGitDiffOutput_agrees output :
  (∀ line, line ∈ split LF (trim output) → blank line → line = []) →
  parseGitDiffOutput output = parseGitDiffOutput_dropping_blank output.
Proof.
  intros Hlines. rewrite <- dropping_blank_trim.
  unfold parseGitDiffOutput, parseGitDiffOutput_dropping_blank.
  assert (∀ lines : list jsstring,
            (∀ line, line ∈ lines → blank line → line = []) →
            filter truthy lines = filter (λ line, ¬ blank line) lines) as Hfilter.
  { induction lines as [|line lines IH]; intros Hl; [done|].
    rewrite !filter_cons, IH by (intros l ?; apply Hl; by right).
    destruct (decide (truthy line)) as [Ht|Ht], (decide (¬ blank line)) as [Hb|Hb];
      try done.
    - apply dec_stable in Hb. destruct Ht. apply Hl; [by left|done].
    - apply dec_stable in Ht. subst line. by destruct Hb. }
  case_decide as Hout.
  - f_equal. by apply Hfilter.
  - apply dec_stable in Hout. by rewrite Hout.
Qed.

(** C4, as the code has it. The whole output is trimmed and split into
    lines, the empty lines are dropped, and every remaining line gives one
    entry, in order: the line is trimmed and split on tabs, the first
    field is the kind and the other fields, rejoined with tabs, are the
    path (so kind, tab and path put together give back the trimmed line).
    This is the same as dropping the blank lines of the output whenever no
    line of the trimmed output is made of white space alone. The line
    M<tab>src/file<tab>with<tab>tabs.js gives the single entry of kind M
    and path src/file<tab>with<tab>tabs.js. *)
Theorem parseGitDiffOutput_nonempty_lines (output : jsstring) :
  parseGitDiffOutput output
    = parseDiffLine <$> filter (λ line, line ≠ []) (split LF (trim output))
  ∧ (∀ line, let entry := parseDiffLine line in
       (TAB ∉ status entry)
       ∧ (TAB ∉ trim line → status entry = trim line ∧ filename entry = [])
       ∧ (TAB ∈ trim line → trim line = status entry ++ [TAB] ++ filename entry))
  ∧ ((∀ line, line ∈ split LF (trim output) → blank line → line = []) →
     parseGitDiffOutput output = parseGitDiffOutput_dropping_blank output)
  ∧ parseGitDiffOutput tabbed_line
    = [ {| filename := lit "src/file" ++ [TAB] ++ lit "with" ++ [TAB] ++ lit "tabs.js";
           status := lit "M" |} ].
Proof.
  split; [|split; [|split]].
  - unfold parseGitDiffOutput. case_decide as Hout; [done|].
    apply dec_stable in Hout. by rewrite Hout.
  - apply parseDiffLine_fields.
  - apply parseGitDiffOutput_agrees.
  - by vm_compute.
Qed.

(** A line of white space between two entries is blank but not empty: it
    is kept, and parses to an entry with empty kind and empty path, where
    dropping the blank lines leaves two entries. *)
Lemma parseGitDiffOutput_keeps_white_space_line :
  blank [SPACE]
  ∧ split LF white_space_line_output
    = [lit "M" ++ [TAB] ++ lit "a.js"; [SPACE]; lit "A" ++ [TAB] ++ lit "b.js"]
  ∧ parseGitDiffOutput white_space_line_output
    = [ {| filename := lit "a.js"; status := lit "M" |};
        {| filename := []; status := [] |};
        {| filename := lit "b.js"; status := lit "A" |} ]
  ∧ parseGitDiffOutput_dropping_blank white_space_line_output
    = [ {| filename := lit "a.js"; status := lit "M" |};
        {| filename := lit "b.js"; status := lit "A" |} ]
  ∧ parseGitDiffOutput white_space_line_output
    ≠ parseGitDiffOutput_dropping_blank white_space_line_output.
Proof. by vm_compute. Qed.

(** ** The stages, one by one *)

Section stages.
Context (env : Env) (config : GitConflictDetectorConfig).

Lemma instanceof_Error_message e :
  instanceof_Error e = true → ∃ msg, message e = Some msg.
Proof. unfold instanceof_Error, message. destruct (nature e); [eauto|done]. Qed.

Lemma js_String_run e h :
  js_String e h
  = (match to_String e with
     | Converted text => Return text
     | Fault fault => Throw fault
     end, h).
Proof. unfold js_String. by destruct (to_String e). Qed.

Lemma execGitCommand_run command h :
  execGitCommand env config command h
  = (match git_answer env config h command with
     | Return v => Return (exec_output v)
     | Throw e =>
         Throw (if instanceof_Error e then
                  new_Error (lit "Git command failed: git " ++ command
                             ++ lit " - " ++ template (message e))
                else e)
     end, h ++ [gitRequest config command]).
Proof.
  unfold execGitCommand, try_catch, mbind, M_bind, execSync, git_answer, gitRequest.
  destruct (child_process_execSync _ _ _ _) as [v|e]; [by destruct v|].
  unfold throw. by destruct (instanceof_Error e).
Qed.

(** *** The configuration validator *)

Lemma not_truthy_iff s : ¬ truthy s ↔ s = [].
Proof. unfold truthy. split; [apply dec_stable|by intros -> ?]. Qed.

Lemma validateConfig_run h :
  validateConfig env config h
  = match first_missing config with
    | Some msg => (Return (Some msg), h)
    | None =>
        (Return (if fs_existsSync env h (localRepoPath config) then None
                 else Some (lit "Local repository path does not exist: "
                            ++ localRepoPath config)),
         h ++ [ExistsSync (localRepoPath config)])
    end.
Proof.
  unfold validateConfig, first_missing, required_fields.
  cbn [List.find fst snd].
  repeat (case_decide as Hd;
          [apply not_truthy_iff in Hd; rewrite bool_decide_eq_true_2 by done;
           reflexivity|];
          rewrite bool_decide_eq_false_2
            by (intros E; apply Hd; by apply not_truthy_iff);
          clear Hd).
  unfold mbind, M_bind, existsSync.
  by destruct (fs_existsSync env h (localRepoPath config)).
Qed.

Lemma validateConfig_returns h :
  ∃ configError h1, validateConfig env config h = (Return configError, h1).
Proof. rewrite validateConfig_run. destruct (first_missing config); eauto. Qed.

(** *** The repository validator *)

Lemma validateLocalRepository_run h :
  validateLocalRepository env config h
  = match git_answer env config h revParseCommand with
    | Throw e =>
        (invalid_repository config revParseCommand e,
         h ++ [gitRequest config revParseCommand])
    | Return _ =>
        match git_answer env config (h ++ [gitRequest config revParseCommand])
                branchListCommand with
        | Throw e =>
            (invalid_repository config branchListCommand e,
             h ++ [gitRequest config revParseCommand;
                   gitRequest config branchListCommand])
        | Return v2 =>
            (Return (if decide (branchB config ∉ parseBranchList (exec_output v2))
                     then Some (lit "Branch '" ++ branchB config
                                ++ lit "' does not exist locally")
                     else None),
             h ++ [gitRequest config revParseCommand;
                   gitRequest config branchListCommand])
        end
    end.
Proof.
  unfold validateLocalRepository, try_catch, mbind, M_bind, invalid_repository.
  rewrite execGitCommand_run. fold revParseCommand.
  destruct (git_answer env config h revParseCommand) as [v1|e1].
  - rewrite execGitCommand_run. fold branchListCommand.
    destruct (git_answer env config _ branchListCommand) as [v2|e2].
    + rewrite <- app_assoc. simpl. by case_decide.
    + rewrite <- app_assoc.
      destruct (instanceof_Error e2) eqn:He; simpl; rewrite ?He; [done|].
      unfold mbind, M_bind. rewrite js_String_run.
      by destruct (to_String e2).
  - destruct (instanceof_Error e1) eqn:He; simpl; rewrite ?He; [done|].
    unfold mbind, M_bind. rewrite js_String_run.
    by destruct (to_String e1).
Qed.

Lemma validateLocalRepository_listed h v1 v2 :
  git_answer env config h revParseCommand = Return v1 →
  git_answer env config (h ++ [gitRequest config revParseCommand]) branchListCommand
    = Return v2 →
  validateLocalRepository env config h
  = (Return (if decide (branchB config ∉ parseBranchList (exec_output v2))
             then Some (lit "Branch '" ++ branchB config
                        ++ lit "' does not exist locally")
             else None),
     h ++ [gitRequest config revParseCommand; gitRequest config branchListCommand]).
Proof. intros H1 H2. by rewrite validateLocalRepository_run, H1, H2. Qed.

(** *** The merge-base resolver *)

Lemma findMergeBaseCommit_run h :
  findMergeBaseCommit env config h
  = (match git_answer env config h (mergeBaseCommand config) with
     | Return v =>
         if decide (truthy (trim (exec_output v))) then Return (trim (exec_output v))
         else Throw (new_Error
                (lit "Failed to find merge base: "
                 ++ lit "Could not find merge base between "
                 ++ (lit "origin/" ++ branchA config) ++ lit " and " ++ branchB config))
     | Throw e =>
         Throw (if instanceof_Error e then
                  new_Error (lit "Failed to find merge base: "
                             ++ lit "Git command failed: git " ++ mergeBaseCommand config
                             ++ lit " - " ++ template (message e))
                else e)
     end, h ++ [gitRequest config (mergeBaseCommand config)]).
Proof.
  unfold findMergeBaseCommit, try_catch, mbind, M_bind.
  rewrite execGitCommand_run. fold (mergeBaseCommand config).
  destruct (git_answer env config h (mergeBaseCommand config)) as [v|e].
  - destruct (decide (truthy (trim (exec_output v)))) as [Ht|Ht].
    + by rewrite decide_False by by intros ?.
    + by rewrite decide_True.
  - by destruct (instanceof_Error e) eqn:He; simpl; rewrite ?He.
Qed.

Lemma findMergeBaseCommit_returns h mergeBase hm :
  findMergeBaseCommit env config h = (Return mergeBase, hm) →
  truthy mergeBase ∧ no_outer_white_space mergeBase
  ∧ hm = h ++ [gitRequest config (mergeBaseCommand config)]
  ∧ ∃ v, git_answer env config h (mergeBaseCommand config) = Return v
         ∧ mergeBase = trim (exec_output v).
Proof.
  rewrite findMergeBaseCommit_run.
  destruct (git_answer env config h (mergeBaseCommand config)) as [v|e]; [|done].
  case_decide as Ht; [|done]. intros [= <- <-].
  split_and!; [done|apply trim_no_outer_white_space|done|by exists v].
Qed.

Lemma findMergeBaseCommit_throws h e hm :
  findMergeBaseCommit env config h = (Throw e, hm) →
  hm = h ++ [gitRequest config (mergeBaseCommand config)].
Proof. rewrite findMergeBaseCommit_run. by intros [= _ <-]. Qed.

(** *** The collectors *)

Lemma getLocalChanges_run mergeBase h :
  getLocalChanges env config mergeBase h
  = (match git_answer env config h (diffCommand config mergeBase) with
     | Return v => Return (parseGitDiffOutput (exec_output v))
     | Throw e =>
         Throw (if instanceof_Error e then
                  new_Error (lit "Failed to get local changes: "
                             ++ lit "Git command failed: git "
                             ++ diffCommand config mergeBase
                             ++ lit " - " ++ template (message e))
                else e)
     end, h ++ [gitRequest config (diffCommand config mergeBase)]).
Proof.
  unfold getLocalChanges, try_catch, mbind, M_bind.
  rewrite execGitCommand_run. fold (diffCommand config mergeBase).
  destruct (git_answer env config h _) as [v|e]; [done|].
  by destruct (instanceof_Error e) eqn:He; simpl; rewrite ?He.
Qed.

Lemma getLocalChanges_history mergeBase h o hl :
  getLocalChanges env config mergeBase h = (o, hl) →
  hl = h ++ [gitRequest config (diffCommand config mergeBase)].
Proof. rewrite getLocalChanges_run. by intros [= _ <-]. Qed.

Lemma getRemoteChanges_run mergeBase h :
  getRemoteChanges env config mergeBase h
  = (match compare_answer env config h mergeBase with
     | Return response =>
         Return ((λ file, {| filename := api_filename file; status := api_status file |})
                   <$> default [] (data_files response))
     | Throw e =>
         if isAxiosError e then
           Throw (new_Error
             (lit "GitHub API error ("
              ++ template ((λ code, number_to_string (status_number code))
                             <$> response_status e) ++ lit "): "
              ++ template (or_else (response_data_message e) (message e))))
         else if instanceof_Error e then
           Throw (new_Error (lit "Failed to get remote changes: "
                             ++ template (message e)))
         else match to_String e with
              | Converted text =>
                  Throw (new_Error (lit "Failed to get remote changes: " ++ text))
              | Fault fault => Throw fault
              end
     end, h ++ [compareRequest config mergeBase]).
Proof.
  unfold getRemoteChanges, try_catch, mbind, M_bind, axiosGet, compare_answer,
    compareRequest.
  destruct (axios_get env h _ _ _) as [response|e]; [done|].
  destruct (isAxiosError e), (instanceof_Error e); try done.
  unfold mbind, M_bind. rewrite js_String_run. by destruct (to_String e).
Qed.

Lemma getRemoteChanges_history mergeBase h o hr :
  getRemoteChanges env config mergeBase h = (o, hr) →
  hr = h ++ [compareRequest config mergeBase].
Proof. rewrite getRemoteChanges_run. by intros [= _ <-]. Qed.

(** *** The orchestration *)

Lemma findPotentialConflicts_caught (body : M ConflictDetectionResult) h e h' :
  body h = (Throw e, h') →
  try_catch body
    (λ error,
       if instanceof_Error error then
         mret {| potentialConflicts := [];
                 mergeBaseCommit := [];
                 error := message error |}
       else
         text ← js_String error;
         mret {| potentialConflicts := [];
                 mergeBaseCommit := [];
                 error := Some text |}) h
  = (boundary e, h').
Proof.
  intros Hbody. unfold try_catch, boundary. rewrite Hbody.
  destruct (instanceof_Error e); [done|].
  unfold mbind, M_bind. rewrite js_String_run. by destruct (to_String e).
Qed.

Lemma findPotentialConflicts_run h :
  ∃ o h', findPotentialConflicts env config h = (o, h') ∧ run env config h o h'.
Proof.
  destruct (validateConfig_returns h) as (ce & h1 & Hc).
  destruct (decide (truthy_value ce)) as [Hce|Hce].
  { destruct ce as [msg|]; [|done]. eexists _, _. split; [|by eapply run_config_error].
    unfold findPotentialConflicts, try_catch, mbind, M_bind.
    rewrite Hc. by rewrite decide_True. }
  destruct (validateLocalRepository env config h1) as [[re|e] hv] eqn:Hr; last first.
  { eexists _, _. split; [|by eapply run_repository_fault].
    apply findPotentialConflicts_caught. unfold mbind, M_bind.
    rewrite Hc. rewrite decide_False by done. by rewrite Hr. }
  destruct (decide (truthy_value re)) as [Hre|Hre].
  { destruct re as [msg|]; [|done].
    eexists _, _. split; [|by eapply run_repository_error].
    unfold findPotentialConflicts, try_catch, mbind, M_bind.
    rewrite Hc. rewrite decide_False by done. rewrite Hr. by rewrite decide_True. }
  assert (validated env config h hv) as Hv by by exists ce, h1, re.
  destruct (findMergeBaseCommit env config hv) as [[mb|e] hm] eqn:Hm; last first.
  { eexists _, _. split; [|by eapply run_merge_base_fault].
    apply findPotentialConflicts_caught. unfold mbind, M_bind.
    rewrite Hc. rewrite decide_False by done. rewrite Hr. rewrite decide_False by done.
    by rewrite Hm. }
  destruct (getLocalChanges env config mb hm) as [[L|e] hl] eqn:Hl; last first.
  { eexists _, _. split; [|by eapply run_local_fault].
    apply findPotentialConflicts_caught. unfold mbind, M_bind.
    rewrite Hc. rewrite decide_False by done. rewrite Hr. rewrite decide_False by done.
    rewrite Hm. by rewrite Hl. }
  destruct (getRemoteChanges env config mb hl) as [[R|e] hr] eqn:Hg; last first.
  { eexists _, _. split; [|by eapply run_remote_fault].
    apply findPotentialConflicts_caught. unfold mbind, M_bind.
    rewrite Hc. rewrite decide_False by done. rewrite Hr. rewrite decide_False by done.
    rewrite Hm. rewrite Hl. by rewrite Hg. }
  eexists _, _. split; [|by eapply run_success].
  unfold findPotentialConflicts, try_catch, mbind, M_bind.
  rewrite Hc. rewrite decide_False by done. rewrite Hr. rewrite decide_False by done.
  rewrite Hm. rewrite Hl. by rewrite Hg.
Qed.


Lemma findPotentialConflicts_config_error h msg h1 :
  validateConfig env config h = (Return (Some msg), h1) →
  truthy msg →
  findPotentialConflicts env config h = (Return (failure (Some msg)), h1).
Proof.
  intros Hc Hmsg. unfold findPotentialConflicts, try_catch, mbind, M_bind.
  rewrite Hc. by rewrite decide_True.
Qed.

Lemma findPotentialConflicts_repository_error h configError h1 msg hv :
  validateConfig env config h = (Return configError, h1) →
  ¬ truthy_value configError →
  validateLocalRepository env config h1 = (Return (Some msg), hv) →
  truthy msg →
  findPotentialConflicts env config h = (Return (failure (Some msg)), hv).
Proof.
  intros Hc Hce Hr Hmsg. unfold findPotentialConflicts, try_catch, mbind, M_bind.
  rewrite Hc. rewrite decide_False by done. rewrite Hr. by rewrite decide_True.
Qed.

Lemma findPotentialConflicts_repository_fault h configError h1 e hv :
  validateConfig env config h = (Return configError, h1) →
  ¬ truthy_value configError →
  validateLocalRepository env config h1 = (Throw e, hv) →
  findPotentialConflicts env config h = (boundary e, hv).
Proof.
  intros Hc Hce Hr. apply findPotentialConflicts_caught. unfold mbind, M_bind.
  rewrite Hc. rewrite decide_False by done. by rewrite Hr.
Qed.

(** Once both validators pass, the run is the resolver, the local
    collector, the remote collector and the intersection, in this order,
    and the first fault ends it. *)
Lemma findPotentialConflicts_validated h hv :
  validated env config h hv →
  findPotentialConflicts env config h
  = match findMergeBaseCommit env config hv with
    | (Throw e, hm) => (boundary e, hm)
    | (Return mergeBase, hm) =>
        match getLocalChanges env config mergeBase hm with
        | (Throw e, hl) => (boundary e, hl)
        | (Return localChanges, hl) =>
            match getRemoteChanges env config mergeBase hl with
            | (Throw e, hr) => (boundary e, hr)
            | (Return remoteChanges, hr) =>
                (Return {| potentialConflicts :=
                             findCommonChanges localChanges remoteChanges;
                           mergeBaseCommit := mergeBase;
                           error := None |}, hr)
            end
        end
    end.
Proof.
  intros (ce & h1 & re & Hc & Hce & Hr & Hre).
  destruct (findMergeBaseCommit env config hv) as [[mb|e] hm] eqn:Hm; last first.
  { apply findPotentialConflicts_caught. unfold mbind, M_bind.
    rewrite Hc. rewrite decide_False by done. rewrite Hr. rewrite decide_False by done.
    by rewrite Hm. }
  destruct (getLocalChanges env config mb hm) as [[L|e] hl] eqn:Hl; last first.
  { apply findPotentialConflicts_caught. unfold mbind, M_bind.
    rewrite Hc. rewrite decide_False by done. rewrite Hr. rewrite decide_False by done.
    rewrite Hm. by rewrite Hl. }
  destruct (getRemoteChanges env config mb hl) as [[R|e] hr] eqn:Hg; last first.
  { apply findPotentialConflicts_caught. unfold mbind, M_bind.
    rewrite Hc. rewrite decide_False by done. rewrite Hr. rewrite decide_False by done.
    rewrite Hm. rewrite Hl. by rewrite Hg. }
  unfold findPotentialConflicts, try_catch, mbind, M_bind.
  rewrite Hc. rewrite decide_False by done. rewrite Hr. rewrite decide_False by done.
  rewrite Hm. rewrite Hl. by rewrite Hg.
Qed.

Lemma validateLocalRepository_history h o hv :
  validateLocalRepository env config h = (o, hv) →
  hv = h ++ [gitRequest config revParseCommand]
  ∨ hv = h ++ [gitRequest config revParseCommand; gitRequest config branchListCommand].
Proof.
  rewrite validateLocalRepository_run.
  destruct (git_answer env config h revParseCommand) as [v1|e1];
    [|intros [= _ <-]; by left].
  destruct (git_answer env config _ branchListCommand) as [v2|e2];
    intros [= _ <-]; by right.
Qed.

Lemma validateConfig_history h configError h1 :
  validateConfig env config h = (Return configError, h1) →
  (truthy_value configError ∧ h1 = h)
  ∨ h1 = h ++ [ExistsSync (localRepoPath config)].
Proof.
  rewrite validateConfig_run.
  destruct (first_missing config) as [msg|] eqn:Hfm; intros [= <- <-]; [left|by right].
  split; [|done].
  unfold first_missing, required_fields in Hfm. cbn [List.find fst snd] in Hfm.
  with_strategy transparent [lit]
    (repeat case_bool_decide; simplify_eq/=; done).
Qed.

Lemma validated_history h hv :
  validated env config h hv →
  hv = h ++ [ExistsSync (localRepoPath config);
             gitRequest config revParseCommand]
  ∨ hv = h ++ [ExistsSync (localRepoPath config);
               gitRequest config revParseCommand;
               gitRequest config branchListCommand].
Proof.
  intros (ce & h1 & re & Hc & Hce & Hr & Hre).
  apply validateConfig_history in Hc as [[? _]| ->]; [done|].
  apply validateLocalRepository_history in Hr as [-> | ->];
    rewrite <- app_assoc; [by left|by right].
Qed.

(** *** Which requests are collector requests *)

Lemma lit_head_neq (a b : ascii) (s t : string) (x y : jsstring) :
  N_of_ascii a ≠ N_of_ascii b → lit (String a s) ++ x ≠ lit (String b t) ++ y.
Proof. rewrite !lit_String. intros Hab [= ?]. done. Qed.

Lemma existsSync_not_collector path : ¬ collector_request config (ExistsSync path).
Proof. by intros (mb & [?|?]). Qed.

Lemma git_not_collector (a : ascii) (s : string) (x : jsstring) :
  N_of_ascii a ≠ N_of_ascii "d" →
  ¬ collector_request config (gitRequest config (lit (String a s) ++ x)).
Proof.
  intros Ha (mb & [Heq|Heq]); [|done].
  assert (lit "git " ++ lit (String a s) ++ x
          = lit "git " ++ diffCommand config mb) as Hcmd
    by (unfold gitRequest in Heq; congruence).
  apply app_inv_head in Hcmd. by apply lit_head_neq in Hcmd.
Qed.

Lemma revParse_not_collector :
  ¬ collector_request config (gitRequest config revParseCommand).
Proof.
  unfold revParseCommand. rewrite <- (app_nil_r (lit _)).
  by apply git_not_collector.
Qed.

Lemma branchList_not_collector :
  ¬ collector_request config (gitRequest config branchListCommand).
Proof.
  unfold branchListCommand. rewrite <- (app_nil_r (lit _)).
  by apply git_not_collector.
Qed.

Lemma mergeBase_not_collector :
  ¬ collector_request config (gitRequest config (mergeBaseCommand config)).
Proof. unfold mergeBaseCommand. by apply git_not_collector. Qed.


Lemma validated_unique h hv hv' :
  validated env config h hv → validated env config h hv' → hv = hv'.
Proof.
  intros (ce & h1 & re & Hc & _ & Hr & _) (ce' & h1' & re' & Hc' & _ & Hr' & _).
  congruence.
Qed.

(** The validators make no collector request. *)
Lemma validated_quiet h hv :
  validated env config h hv → ∃ before, hv = h ++ before ∧ quiet config before.
Proof.
  pose proof (existsSync_not_collector (localRepoPath config)).
  pose proof revParse_not_collector. pose proof branchList_not_collector.
  intros [-> | ->]%validated_history; eexists; (split; [done|]);
    by repeat constructor.
Qed.

End stages.

(** ** The orchestration boundary *)

Lemma boundary_returns (e : thrown) :
  convertible e → ∃ err, boundary e = Return (failure (Some err)).
Proof.
  unfold convertible, boundary. intros He.
  destruct (instanceof_Error e) eqn:Hi.
  - destruct (instanceof_Error_message e Hi) as (msg & ->). by exists msg.
  - destruct (He eq_refl) as (text & ->). by exists text.
Qed.

Lemma boundary_result (e : thrown) (result : ConflictDetectionResult) :
  boundary e = Return result → ∃ err, result = failure (Some err).
Proof.
  unfold boundary. destruct (instanceof_Error e) eqn:Hi.
  - destruct (instanceof_Error_message e Hi) as (msg & ->).
    intros [= <-]. by exists msg.
  - destruct (to_String e) as [text|fault]; [|done]. intros [= <-]. by exists text.
Qed.

Lemma boundary_throws (e fault : thrown) :
  boundary e = Throw fault → instanceof_Error e = false ∧ to_String e = Fault fault.
Proof.
  unfold boundary. destruct (instanceof_Error e); [done|].
  destruct (to_String e); [done|]. by intros [= ->].
Qed.

(** What leaves [findPotentialConflicts] comes from the conversion of a
    value that a collaborator threw and that is not an [Error]. *)
Lemma findPotentialConflicts_throws
    (env : Env) (config : GitConflictDetectorConfig) (h h' : history) (fault : thrown) :
  findPotentialConflicts env config h = (Throw fault, h') →
  ∃ e, thrown_by env e ∧ instanceof_Error e = false ∧ conversion_fault e fault.
Proof.
  assert (∀ h0 command e,
            git_answer env config h0 command = Throw e → thrown_by env e) as Hgit.
  { intros h0 command e He. left. by eexists _, _, _. }
  assert (∀ command e e1,
            invalid_repository config command e = Throw e1 →
            instanceof_Error e = false ∧ to_String e = Fault e1) as Hinv.
  { intros command e e1. unfold invalid_repository.
    destruct (instanceof_Error e); [done|].
    destruct (to_String e); [done|]. by intros [= ->]. }
  destruct (findPotentialConflicts_run env config h) as (o & h1 & -> & Hrun).
  intros [= Hb _].
  destruct Hrun as [msg h2 Hc Hmsg|ce h2 msg hv Hc Hce Hr Hmsg
                   |ce h2 e hv Hc Hce Hr|hv e hm Hv Hm
                   |hv mb hm e hl Hv Hm Hl
                   |hv mb hm L hl e hr Hv Hm Hl Hg
                   |hv mb hm L hl R hr Hv Hm Hl Hg]; try done;
    apply boundary_throws in Hb as [He Hs].
  - rewrite validateLocalRepository_run in Hr.
    destruct (git_answer env config h2 revParseCommand) as [v1|e1] eqn:H1.
    + destruct (git_answer env config _ branchListCommand) as [v2|e2] eqn:H2;
        [done|].
      injection Hr as Hr _. apply Hinv in Hr as [He2 Hs2].
      exists e2. split; [by eapply Hgit|]. split; [done|]. right. by exists e.
    + injection Hr as Hr _. apply Hinv in Hr as [He1 Hs1].
      exists e1. split; [by eapply Hgit|]. split; [done|]. right. by exists e.
  - rewrite findMergeBaseCommit_run in Hm.
    destruct (git_answer env config hv (mergeBaseCommand config)) as [v|e0] eqn:Hans.
    + case_decide; [done|]. injection Hm as <- _. done.
    + injection Hm as <- _. destruct (instanceof_Error e0) eqn:He0; [done|].
      exists e0. split; [by eapply Hgit|]. split; [done|]. by left.
  - rewrite getLocalChanges_run in Hl.
    destruct (git_answer env config hm (diffCommand config mb)) as [v|e0] eqn:Hans;
      [done|].
    injection Hl as <- _. destruct (instanceof_Error e0) eqn:He0; [done|].
    exists e0. split; [by eapply Hgit|]. split; [done|]. by left.
  - rewrite getRemoteChanges_run in Hg.
    destruct (compare_answer env config hl mb) as [response|e0] eqn:Hans; [done|].
    destruct (isAxiosError e0); [injection Hg as <- _; done|].
    destruct (instanceof_Error e0) eqn:He0; [injection Hg as <- _; done|].
    destruct (to_String e0) as [text|e1] eqn:Hs0; injection Hg as <- _; [done|].
    exists e0. split; [right; by eexists _, _, _, _|]. split; [done|].
    right. by exists e1.
Qed.

Lemma new_Error_convertible (msg : jsstring) : convertible (new_Error msg).
Proof. by intros ?. Qed.

(** With convertible faults, the repository validator returns and the
    later stages throw convertible values only. *)
Section convertible_faults.
Context (env : Env) (config : GitConflictDetectorConfig).
Hypothesis Henv : convertible_faults env.

Lemma git_answer_convertible h command e :
  git_answer env config h command = Throw e → convertible e.
Proof using Henv. destruct Henv as [Hexec _]. apply Hexec. Qed.

Lemma validateLocalRepository_returns h :
  ∃ repoError hv, validateLocalRepository env config h = (Return repoError, hv).
Proof using Henv.
  assert (∀ command e, convertible e →
            ∃ repoError, invalid_repository config command e = Return repoError)
    as Hinv.
  { intros command e He. unfold invalid_repository.
    destruct (instanceof_Error e) eqn:Hi; [by eexists|].
    destruct (He Hi) as (text & ->). by eexists. }
  rewrite validateLocalRepository_run.
  destruct (git_answer env config h revParseCommand) as [v1|e1] eqn:H1.
  - destruct (git_answer env config _ branchListCommand) as [v2|e2] eqn:H2.
    + by eexists _, _.
    + destruct (Hinv branchListCommand e2) as (re & ->);
        [by eapply git_answer_convertible|]. by eexists _, _.
  - destruct (Hinv revParseCommand e1) as (re & ->);
      [by eapply git_answer_convertible|]. by eexists _, _.
Qed.

Lemma findMergeBaseCommit_convertible h e hm :
  findMergeBaseCommit env config h = (Throw e, hm) → convertible e.
Proof using Henv.
  rewrite findMergeBaseCommit_run.
  destruct (git_answer env config h (mergeBaseCommand config)) as [v|e0] eqn:Hans.
  - case_decide; [done|]. intros [= <- _]. apply new_Error_convertible.
  - intros [= <- _]. destruct (instanceof_Error e0) eqn:Hi;
      [apply new_Error_convertible|by eapply git_answer_convertible].
Qed.

Lemma getLocalChanges_convertible mergeBase h e hl :
  getLocalChanges env config mergeBase h = (Throw e, hl) → convertible e.
Proof using Henv.
  rewrite getLocalChanges_run.
  destruct (git_answer env config h (diffCommand config mergeBase)) as [v|e0] eqn:Hans;
    [done|].
  intros [= <- _]. destruct (instanceof_Error e0) eqn:Hi;
    [apply new_Error_convertible|by eapply git_answer_convertible].
Qed.

Lemma getRemoteChanges_convertible mergeBase h e hr :
  getRemoteChanges env config mergeBase h = (Throw e, hr) → convertible e.
Proof using Henv.
  rewrite getRemoteChanges_run.
  destruct (compare_answer env config h mergeBase) as [response|e0] eqn:Hans; [done|].
  destruct (isAxiosError e0); [intros [= <- _]; apply new_Error_convertible|].
  destruct (instanceof_Error e0) eqn:Hi; [intros [= <- _]; apply new_Error_convertible|].
  destruct Henv as [_ Haxios].
  destruct (Haxios _ _ _ _ _ Hans Hi) as (text & ->).
  intros [= <- _]. apply new_Error_convertible.
Qed.

Lemma findPotentialConflicts_returns h :
  ∃ result h', findPotentialConflicts env config h = (Return result, h').
Proof using Henv.
  destruct (findPotentialConflicts_run env config h) as (o & h' & -> & Hrun).
  destruct Hrun as [msg h1 Hc Hmsg|ce h1 msg hv Hc Hce Hr Hmsg|ce h1 e hv Hc Hce Hr
                   |hv e hm Hv Hm|hv mb hm e hl Hv Hm Hl|hv mb hm L hl e hr Hv Hm Hl Hg
                   |hv mb hm L hl R hr Hv Hm Hl Hg]; try by eexists _, _.
  - destruct (validateLocalRepository_returns h1) as (? & ? & ?). congruence.
  - destruct (boundary_returns e) as (err & ->);
      [by eapply findMergeBaseCommit_convertible|]. by eexists _, _.
  - destruct (boundary_returns e) as (err & ->);
      [by eapply getLocalChanges_convertible|]. by eexists _, _.
  - destruct (boundary_returns e) as (err & ->);
      [by eapply getRemoteChanges_convertible|]. by eexists _, _.
Qed.

End convertible_faults.

Lemma failing_env_convertible (word : jsstring) (e : thrown) :
  convertible e → convertible_faults (failing_env word e).
Proof.
  intros He. split.
  - intros h command cwd e'. simpl. destruct (includes command word).
    + by intros [= <-].
    + done.
  - done.
Qed.




(** C10. Every result [findPotentialConflicts] returns is of one of two
    kinds: the [error] field is set, and then the merge-base identifier is
    the empty string and the conflict list is empty; or the [error] field
    is absent, and then the merge-base identifier is not empty and neither
    starts nor ends with white space. *)
Theorem findPotentialConflicts_result_kinds
    (env : Env) (config : GitConflictDetectorConfig) (h h' : history)
    (result : ConflictDetectionResult) :
  findPotentialConflicts env config h = (Return result, h') →
  (is_Some (error result)
   ∧ mergeBaseCommit result = [] ∧ potentialConflicts result = [])
  ∨ (error result = None
     ∧ truthy (mergeBaseCommit result)
     ∧ no_outer_white_space (mergeBaseCommit result)).
Proof.
  destruct (findPotentialConflicts_run env config h) as (o & h1 & -> & Hrun).
  intros [= -> _].
  inversion Hrun as [| | ? ? e ? _ _ _ Hb|? e ? _ _ Hb|? ? ? e ? _ _ _ Hb
                    |? ? ? ? ? e ? _ _ _ _ Hb|? mb ? ? ? ? ? _ Hm _ _]; subst; simpl;
    try (left; by split; [eexists|]);
    try (apply boundary_result in Hb as (err & ->);
         left; by split; [eexists|]).
  right. apply findMergeBaseCommit_returns in Hm as (? & ? & _). done.
Qed.

(** The two kinds in the sample world: the run that succeeds, and the run
    on a path that does not exist. *)
Lemma findPotentialConflicts_result_kinds_witness :
  (error (failure (Some (lit "Local repository path does not exist: /path/to/repo")))
   = Some (lit "Local repository path does not exist: /path/to/repo")
   ∧ mergeBaseCommit
       (failure (Some (lit "Local repository path does not exist: /path/to/repo")))
     = [])
  ∧ truthy sample_merge_base ∧ no_outer_white_space sample_merge_base.
Proof.
  destruct (findPotentialConflicts_result_kinds
              (sample_env false sample_merge_base (Return {| data_files := None |}))
              sample_config []
              [ExistsSync (lit "/path/to/repo")]
              (failure (Some (lit "Local repository path does not exist: /path/to/repo"))))
    as [(_ & Hbase & _)|(Hnone & _)]; [by vm_compute| |done].
  destruct (findPotentialConflicts_result_kinds
              (sample_env true sample_merge_base (Return {| data_files := None |}))
              sample_config []
              (sample_validated_history
               ++ [gitRequest sample_config (mergeBaseCommand sample_config);
                   gitRequest sample_config (diffCommand sample_config sample_merge_base);
                   compareRequest sample_config sample_merge_base])
              {| potentialConflicts := []; mergeBaseCommit := sample_merge_base;
                 error := None |})
    as [([? Hsome] & _)|(_ & Htruthy & Houter)]; [by vm_compute|done|].
  split; [split; [done|exact Hbase]|]. split; [exact Htruthy|exact Houter].
Defined.

(** C3, as amended. Let both validators pass and the resolver return an
    identifier. The identifier is not blank; the local collector is
    invoked with it, right after the resolver; when the local collector
    fails the run ends there, and when it returns the remote collector is
    invoked with the same identifier, and the lists the two return are
    the ones compared. In every other run (a validator does not pass, or
    the resolver does not return an identifier) no collector request is
    made. *)
Theorem collectors_share_merge_base
    (env : Env) (config : GitConflictDetectorConfig) (h : history) :
  ∃ o events,
    findPotentialConflicts env config h = (o, h ++ events)
    ∧ (∀ hv mergeBase hm,
         validated env config h hv →
         findMergeBaseCommit env config hv = (Return mergeBase, hm) →
         truthy mergeBase
         ∧ ∃ before lo,
             hv = h ++ before ∧ quiet config before
             ∧ hm = hv ++ [gitRequest config (mergeBaseCommand config)]
             ∧ getLocalChanges env config mergeBase hm
               = (lo, hm ++ [gitRequest config (diffCommand config mergeBase)])
             ∧ match lo with
               | Throw e =>
                   o = boundary e
                   ∧ events = before ++ [gitRequest config (mergeBaseCommand config);
                                          gitRequest config (diffCommand config mergeBase)]
               | Return localChanges =>
                   ∃ ro,
                     getRemoteChanges env config mergeBase
                       (hm ++ [gitRequest config (diffCommand config mergeBase)])
                     = (ro, hm ++ [gitRequest config (diffCommand config mergeBase);
                                   compareRequest config mergeBase])
                     ∧ events = before ++ [gitRequest config (mergeBaseCommand config);
                                            gitRequest config (diffCommand config mergeBase);
                                            compareRequest config mergeBase]
                     ∧ o = match ro with
                           | Return remoteChanges =>
                               Return {| potentialConflicts :=
                                           findCommonChanges localChanges remoteChanges;
                                         mergeBaseCommit := mergeBase;
                                         error := None |}
                           | Throw e => boundary e
                           end
               end)
    ∧ ((∀ hv mergeBase hm,
          validated env config h hv →
          findMergeBaseCommit env config hv ≠ (Return mergeBase, hm)) →
       quiet config events).
Proof.
  pose proof (existsSync_not_collector config (localRepoPath config)) as Qe.
  pose proof (revParse_not_collector config) as Qr.
  pose proof (branchList_not_collector config) as Qb.
  pose proof (mergeBase_not_collector config) as Qm.
  assert (∀ o events,
            findPotentialConflicts env config h = (o, h ++ events) →
            quiet config events →
            (∀ hv mergeBase hm,
               validated env config h hv →
               findMergeBaseCommit env config hv = (Return mergeBase, hm) → False) →
            ∃ o events,
              findPotentialConflicts env config h = (o, h ++ events)
              ∧ (∀ hv mergeBase hm,
                   validated env config h hv →
                   findMergeBaseCommit env config hv = (Return mergeBase, hm) →
                   truthy mergeBase
                   ∧ ∃ before lo,
                       hv = h ++ before ∧ quiet config before
                       ∧ hm = hv ++ [gitRequest config (mergeBaseCommand config)]
                       ∧ getLocalChanges env config mergeBase hm
                         = (lo, hm ++ [gitRequest config (diffCommand config mergeBase)])
                       ∧ match lo with
                         | Throw e =>
                             o = boundary e
                             ∧ events
                               = before ++ [gitRequest config (mergeBaseCommand config);
                                            gitRequest config (diffCommand config mergeBase)]
                         | Return localChanges =>
                             ∃ ro,
                               getRemoteChanges env config mergeBase
                                 (hm ++ [gitRequest config (diffCommand config mergeBase)])
                               = (ro, hm ++ [gitRequest config (diffCommand config mergeBase);
                                             compareRequest config mergeBase])
                               ∧ events
                                 = before ++ [gitRequest config (mergeBaseCommand config);
                                              gitRequest config (diffCommand config mergeBase);
                                              compareRequest config mergeBase]
                               ∧ o = match ro with
                                     | Return remoteChanges =>
                                         Return {| potentialConflicts :=
                                                     findCommonChanges localChanges
                                                       remoteChanges;
                                                   mergeBaseCommit := mergeBase;
                                                   error := None |}
                                     | Throw e => boundary e
                                     end
                         end)
              ∧ ((∀ hv mergeBase hm,
                    validated env config h hv →
                    findMergeBaseCommit env config hv ≠ (Return mergeBase, hm)) →
                 quiet config events)) as Hquiet.
  { intros o events Heq Hq Hnone. exists o, events. split; [done|]. split.
    - intros hv mb hm Hv Hm. destruct (Hnone _ _ _ Hv Hm).
    - by intros _. }
  destruct (validateConfig_returns env config h) as (ce & h1 & Hc).
  destruct (decide (truthy_value ce)) as [Hce|Hce].
  { destruct ce as [msg|]; [|done].
    pose proof (findPotentialConflicts_config_error env config _ _ _ Hc Hce) as Hrun.
    assert (∃ events, h1 = h ++ events ∧ quiet config events) as (events & -> & Hq).
    { pose proof Hc as [[_ ->]| ->]%validateConfig_history.
      - exists []. split; [by rewrite app_nil_r|constructor].
      - eexists. split; [done|]. by repeat constructor. }
    apply (Hquiet _ _ Hrun Hq).
    intros hv mb hm (ce' & h1' & re' & Hc' & Hce' & _) _.
    rewrite Hc in Hc'. injection Hc' as <- <-. by apply Hce'. }
  pose proof Hc as [[? _]|Hh1]%validateConfig_history; [done|].
  destruct (validateLocalRepository env config h1) as [[re|e] hv] eqn:Hr; last first.
  { pose proof (findPotentialConflicts_repository_fault env config _ _ _ _ _
                  Hc Hce Hr) as Hrun.
    assert (∃ events, hv = h ++ events ∧ quiet config events) as (events & -> & Hq).
    { pose proof Hr as [-> | ->]%validateLocalRepository_history;
        rewrite Hh1, <- app_assoc; (eexists; split; [done|]); by repeat constructor. }
    apply (Hquiet _ _ Hrun Hq).
    intros hv' mb hm (ce' & h1' & re' & Hc' & _ & Hr' & _) _.
    rewrite Hc in Hc'. injection Hc' as <- <-. congruence. }
  destruct (decide (truthy_value re)) as [Hre|Hre].
  { destruct re as [msg|]; [|done].
    pose proof (findPotentialConflicts_repository_error env config _ _ _ _ _
                  Hc Hce Hr Hre) as Hrun.
    assert (∃ events, hv = h ++ events ∧ quiet config events) as (events & -> & Hq).
    { pose proof Hr as [-> | ->]%validateLocalRepository_history;
        rewrite Hh1, <- app_assoc; (eexists; split; [done|]); by repeat constructor. }
    apply (Hquiet _ _ Hrun Hq).
    intros hv' mb hm (ce' & h1' & re' & Hc' & _ & Hr' & Hre') _.
    rewrite Hc in Hc'. injection Hc' as <- <-.
    rewrite Hr in Hr'. injection Hr' as <- <-. by apply Hre'. }
  assert (validated env config h hv) as Hv by by exists ce, h1, re.
  pose proof (findPotentialConflicts_validated env config h hv Hv) as Hrun.
  destruct (validated_quiet env config h hv Hv) as (before & -> & Hbefore).
  destruct (findMergeBaseCommit env config (h ++ before)) as [[mb|e] hm] eqn:Hm;
    last first.
  { pose proof Hm as ->%findMergeBaseCommit_throws.
    rewrite <- app_assoc in Hrun.
    apply (Hquiet _ _ Hrun); [apply Forall_app; by repeat constructor|].
    intros hv' mb hm Hv' Hm'.
    rewrite (validated_unique env config _ _ _ Hv' Hv) in Hm'. congruence. }
  pose proof Hm as (Hmb & _ & -> & _)%findMergeBaseCommit_returns.
  destruct (getLocalChanges env config mb _) as [lo hl] eqn:Hl.
  pose proof Hl as ->%getLocalChanges_history.
  destruct (getRemoteChanges env config mb
              (((h ++ before) ++ [gitRequest config (mergeBaseCommand config)])
               ++ [gitRequest config (diffCommand config mb)])) as [ro hr] eqn:Hg.
  pose proof Hg as ->%getRemoteChanges_history.
  exists (match lo with
          | Throw e => boundary e
          | Return L =>
              match ro with
              | Return R => Return {| potentialConflicts := findCommonChanges L R;
                                      mergeBaseCommit := mb; error := None |}
              | Throw e => boundary e
              end
          end),
         (match lo with
          | Throw _ => before ++ [gitRequest config (mergeBaseCommand config);
                                  gitRequest config (diffCommand config mb)]
          | Return _ => before ++ [gitRequest config (mergeBaseCommand config);
                                   gitRequest config (diffCommand config mb);
                                   compareRequest config mb]
          end).
  split; [|split].
  - rewrite Hrun. destruct lo as [L|e]; [destruct ro as [R|e]|];
      by rewrite <- !app_assoc.
  - intros hv' mb' hm' Hv' Hm'.
    pose proof (validated_unique env config _ _ _ Hv' Hv) as ->.
    rewrite Hm in Hm'. injection Hm' as <- <-.
    split; [done|]. exists before, lo. split_and!; try done.
    destruct lo as [L|e]; [|done].
    exists ro. split_and!; try done. rewrite Hg. f_equal. by rewrite <- app_assoc.
  - intros Hnone. by destruct (Hnone _ _ _ Hv Hm).
Qed.

(** The sample world: the validators pass, the resolver returns the
    identifier, and the diff and the comparison are both made with it. *)
Lemma collectors_share_merge_base_witness :
  ∃ o,
    findPotentialConflicts
      (sample_env true sample_merge_base (Return {| data_files := Some sample_files |}))
      sample_config []
    = (o, sample_validated_history
          ++ [gitRequest sample_config (mergeBaseCommand sample_config);
              gitRequest sample_config (diffCommand sample_config sample_merge_base);
              compareRequest sample_config sample_merge_base]).
Proof.
  destruct (collectors_share_merge_base
              (sample_env true sample_merge_base
                 (Return {| data_files := Some sample_files |}))
              sample_config []) as (o & events & Hrun & Hcollect & _).
  destruct (Hcollect sample_validated_history sample_merge_base
              (sample_validated_history
               ++ [gitRequest sample_config (mergeBaseCommand sample_config)]))
    as (_ & before & lo & Hbefore & _ & _ & Hlocal & Hrest).
  - exists None, [ExistsSync (lit "/path/to/repo")], None. by vm_compute.
  - by vm_compute.
  - simpl in Hbefore. subst before.
    assert (∃ localChanges, lo = Return localChanges) as (localChanges & ->).
    { vm_compute in Hlocal. injection Hlocal as <-. by eexists. }
    destruct Hrest as (ro & _ & -> & _). exists o. exact Hrun.
Defined.

(** C3, as stated, fails: in the sample world with a diff command that
    fails, the resolver returns the identifier and the local collector is
    invoked with it, but the remote collector is not invoked at all. *)
Lemma remote_collector_skipped_after_local_failure :
  findMergeBaseCommit
    (failing_env (lit "diff --name-status") (new_Error (lit "fatal: bad revision")))
    sample_config sample_validated_history
  = (Return sample_merge_base,
     sample_validated_history
     ++ [gitRequest sample_config (mergeBaseCommand sample_config)])
  ∧ findPotentialConflicts
      (failing_env (lit "diff --name-status") (new_Error (lit "fatal: bad revision")))
      sample_config []
    = (Return (failure (Some
         (lit "Failed to get local changes: Git command failed: "
          ++ lit "git diff --name-status mergebasecommithash123 branchB - "
          ++ lit "fatal: bad revision"))),
       sample_validated_history
       ++ [gitRequest sample_config (mergeBaseCommand sample_config);
           gitRequest sample_config (diffCommand sample_config sample_merge_base)]).
Proof. by vm_compute. Qed.

(** ** The configuration validator *)

Lemma lit_truthy (a : ascii) (s : string) (x : jsstring) :
  truthy (lit (String a s) ++ x).
Proof. by rewrite lit_String. Qed.

Lemma lit_truthy' (a : ascii) (s : string) : truthy (lit (String a s)).
Proof. by rewrite lit_String. Qed.

(** C5. The validator returns the message of the first empty field in the
    order owner, repository name, access token, local path, branch A,
    branch B, without touching the file system, and
    [findPotentialConflicts] returns that message as its error; when the
    six fields are not empty and the local path does not exist, the error
    is "Local repository path does not exist: " followed by the path. *)
Theorem validateConfig_first_failure
    (env : Env) (config : GitConflictDetectorConfig) (h : history) :
  let fails (msg : jsstring) (h' : history) :=
    validateConfig env config h = (Return (Some msg), h')
    ∧ findPotentialConflicts env config h = (Return (failure (Some msg)), h') in
  (owner config = [] → fails (lit "Owner is required") h)
  ∧ (owner config ≠ [] → repo config = [] →
     fails (lit "Repository name is required") h)
  ∧ (owner config ≠ [] → repo config ≠ [] → accessToken config = [] →
     fails (lit "Access token is required") h)
  ∧ (owner config ≠ [] → repo config ≠ [] → accessToken config ≠ [] →
     localRepoPath config = [] →
     fails (lit "Local repository path is required") h)
  ∧ (owner config ≠ [] → repo config ≠ [] → accessToken config ≠ [] →
     localRepoPath config ≠ [] → branchA config = [] →
     fails (lit "Branch A name is required") h)
  ∧ (owner config ≠ [] → repo config ≠ [] → accessToken config ≠ [] →
     localRepoPath config ≠ [] → branchA config ≠ [] → branchB config = [] →
     fails (lit "Branch B name is required") h)
  ∧ (owner config ≠ [] → repo config ≠ [] → accessToken config ≠ [] →
     localRepoPath config ≠ [] → branchA config ≠ [] → branchB config ≠ [] →
     fs_existsSync env h (localRepoPath config) = false →
     fails (lit "Local repository path does not exist: " ++ localRepoPath config)
           (h ++ [ExistsSync (localRepoPath config)])).
Proof.
  intros fails.
  assert (∀ msg h', truthy msg →
            validateConfig env config h = (Return (Some msg), h') → fails msg h')
    as Hfails.
  { intros msg h' Hmsg Hc. split; [done|].
    by apply findPotentialConflicts_config_error. }
  pose proof (validateConfig_run env config h) as Hrun.
  unfold first_missing, required_fields in Hrun. cbn [List.find fst snd] in Hrun.
  split_and!; intros;
    repeat (first [rewrite bool_decide_eq_true_2 in Hrun by done
                  |rewrite bool_decide_eq_false_2 in Hrun by done]);
    simpl in Hrun; apply Hfails; try apply lit_truthy'; try apply lit_truthy.
  all: try done.
  by replace (fs_existsSync env h (localRepoPath config)) with false in Hrun.
Qed.

(** The theorem at work: with owner and repository name both missing the
    error is the owner's; with a path that does not exist it is the
    path's. *)
Lemma validateConfig_first_failure_witness :
  findPotentialConflicts
    (sample_env true sample_merge_base (Return {| data_files := Some sample_files |}))
    {| owner := []; repo := []; accessToken := lit "test-token";
       localRepoPath := lit "/path/to/repo";
       branchA := lit "branchA"; branchB := lit "branchB" |} []
  = (Return (failure (Some (lit "Owner is required"))), [])
  ∧ findPotentialConflicts
      (sample_env false sample_merge_base (Return {| data_files := Some sample_files |}))
      sample_config []
    = (Return (failure (Some (lit "Local repository path does not exist: "
                              ++ lit "/path/to/repo"))),
       [ExistsSync (lit "/path/to/repo")]).
Proof.
  split.
  - refine (proj2 (proj1 (validateConfig_first_failure _ _ []) _)). reflexivity.
  - refine (proj2 (proj2 (proj2 (proj2 (proj2 (proj2 (proj2
              (validateConfig_first_failure _ sample_config [])))))) _ _ _ _ _ _ _));
      by vm_compute.
Defined.

(** ** The merge-base resolver *)

Lemma failed_to_find_prefix x :
  includes (lit "Failed to find merge base: " ++ x) (lit "Failed to find merge base")
  = true.
Proof.
  change (lit "Failed to find merge base: ")
    with (lit ("Failed to find merge base" +:+ ": ")).
  rewrite lit_app, <- app_assoc. apply includes_prefix.
Qed.

(** C6. Let the validators pass and the merge-base command print [v].
    When [v] is blank the resolver throws, nothing is called after it, and
    the result carries an error that contains "Failed to find merge base"
    and no merge-base identifier; when [v] is not blank the resolver
    returns [v] trimmed. *)
Theorem findMergeBaseCommit_blank_is_failure
    (env : Env) (config : GitConflictDetectorConfig) (h hv : history)
    (v : exec_result) :
  validated env config h hv →
  git_answer env config hv (mergeBaseCommand config) = Return v →
  let hm := hv ++ [gitRequest config (mergeBaseCommand config)] in
  (blank (exec_output v) →
   ∃ msg,
     findMergeBaseCommit env config hv = (Throw (new_Error msg), hm)
     ∧ includes msg (lit "Failed to find merge base") = true
     ∧ findPotentialConflicts env config h = (Return (failure (Some msg)), hm))
  ∧ (¬ blank (exec_output v) →
     findMergeBaseCommit env config hv = (Return (trim (exec_output v)), hm)).
Proof.
  intros Hv Hanswer hm.
  pose proof (findMergeBaseCommit_run env config hv) as Hm. rewrite Hanswer in Hm.
  split; intros Hblank.
  - rewrite decide_False in Hm by (by intros Ht; apply Ht).
    eexists. split; [exact Hm|]. split; [apply failed_to_find_prefix|].
    by rewrite (findPotentialConflicts_validated env config h hv Hv), Hm.
  - by rewrite decide_True in Hm.
Qed.

(** The sample world with a merge-base command that prints a newline, and
    with one that prints the identifier followed by a newline. *)
Lemma findMergeBaseCommit_blank_is_failure_witness :
  (∃ msg,
     includes msg (lit "Failed to find merge base") = true
     ∧ findPotentialConflicts (sample_env true [LF] (Return {| data_files := None |}))
         sample_config []
       = (Return (failure (Some msg)),
          sample_validated_history
          ++ [gitRequest sample_config (mergeBaseCommand sample_config)]))
  ∧ findMergeBaseCommit
      (sample_env true (sample_merge_base ++ [LF]) (Return {| data_files := None |}))
      sample_config sample_validated_history
    = (Return sample_merge_base,
       sample_validated_history
       ++ [gitRequest sample_config (mergeBaseCommand sample_config)]).
Proof.
  split.
  - destruct (findMergeBaseCommit_blank_is_failure
                (sample_env true [LF] (Return {| data_files := None |}))
                sample_config [] sample_validated_history (ExecString [LF]))
      as [Hblank _].
    + exists None, [ExistsSync (lit "/path/to/repo")], None. by vm_compute.
    + by vm_compute.
    + destruct Hblank as (msg & _ & Hin & Hrun); [by vm_compute|].
      by exists msg.
  - refine (proj2 (findMergeBaseCommit_blank_is_failure
                (sample_env true (sample_merge_base ++ [LF])
                            (Return {| data_files := None |}))
                sample_config [] sample_validated_history
                (ExecString (sample_merge_base ++ [LF])) _ _) _).
    + exists None, [ExistsSync (lit "/path/to/repo")], None. by vm_compute.
    + by vm_compute.
    + by vm_compute.
Defined.

(** ** The repository validator *)

(** The marker of the checked-out branch and the white space after it are
    removed. *)
Lemma stripCurrentMarker_marked ws name :
  white ws →
  (∀ c, head name = Some c → is_white_space c = false) →
  stripCurrentMarker (STAR :: ws ++ name) = name.
Proof.
  intros Hws Hname. unfold stripCurrentMarker. rewrite decide_True by done.
  rewrite trimStart_app_white by done. by apply trimStart_id.
Qed.

(** A line without the marker is left as it is. *)
Lemma stripCurrentMarker_unmarked s : head s ≠ Some STAR → stripCurrentMarker s = s.
Proof.
  destruct s as [|c s]; simpl; [done|]. intros Hc.
  rewrite decide_False; [done|]. by intros ->.
Qed.

Lemma elem_of_parseBranchList name output :
  name ∈ parseBranchList output
  ↔ name ≠ [] ∧ ∃ line, line ∈ split LF output ∧ stripCurrentMarker (trim line) = name.
Proof.
  unfold parseBranchList. rewrite list_elem_of_filter, list_elem_of_fmap.
  unfold truthy. split.
  - intros [Hne (line & -> & Hin)]. split; [done|]. by exists line.
  - intros [Hne (line & Hin & <-)]. split; [done|]. by exists line.
Qed.

(** C7. Let [git rev-parse] succeed and [git branch --list] print [v2].
    The branch names are the lines of [v2], each trimmed and relieved of a
    leading star with the white space after it, the empty ones left out.
    Branch B is looked up among them by equality of strings: when it is
    there the validator returns no error, and when it is not the validator
    returns "Branch '<branchB>' does not exist locally", which is then the
    error of [findPotentialConflicts]. *)
Theorem validateLocalRepository_branch_lookup
    (env : Env) (config : GitConflictDetectorConfig) (h : history)
    (v1 v2 : exec_result) :
  git_answer env config h revParseCommand = Return v1 →
  git_answer env config (h ++ [gitRequest config revParseCommand]) branchListCommand
    = Return v2 →
  let names := parseBranchList (exec_output v2) in
  let hv := h ++ [gitRequest config revParseCommand;
                  gitRequest config branchListCommand] in
  let msg := lit "Branch '" ++ branchB config ++ lit "' does not exist locally" in
  (∀ name, name ∈ names
           ↔ name ≠ [] ∧ ∃ line, line ∈ split LF (exec_output v2)
                                 ∧ stripCurrentMarker (trim line) = name)
  ∧ (∀ ws name, white ws →
                (∀ c, head name = Some c → is_white_space c = false) →
                stripCurrentMarker (STAR :: ws ++ name) = name)
  ∧ (∀ line, head line ≠ Some STAR → stripCurrentMarker line = line)
  ∧ (branchB config ∈ names →
     validateLocalRepository env config h = (Return None, hv))
  ∧ (branchB config ∉ names →
     validateLocalRepository env config h = (Return (Some msg), hv)
     ∧ includes msg (lit "Branch '" ++ branchB config ++ lit "' does not exist locally")
       = true
     ∧ ∀ h0 configError,
         validateConfig env config h0 = (Return configError, h) →
         ¬ truthy_value configError →
         findPotentialConflicts env config h0 = (Return (failure (Some msg)), hv)).
Proof.
  intros H1 H2 names hv msg.
  pose proof (validateLocalRepository_listed env config h v1 v2 H1 H2) as Hrun.
  fold names hv msg in Hrun.
  split_and!.
  - intros name. apply elem_of_parseBranchList.
  - apply stripCurrentMarker_marked.
  - apply stripCurrentMarker_unmarked.
  - intros Hin. by rewrite decide_False in Hrun by by intros Hn.
  - intros Hnot. rewrite decide_True in Hrun by done. split; [done|]. split.
    + pose proof (includes_prefix msg []) as Hself. by rewrite app_nil_r in Hself.
    + intros h0 ce Hc Hce.
      eapply findPotentialConflicts_repository_error; [done..|].
      apply lit_truthy.
Qed.

(** The sample world lists branchA (checked out) and branchB: the name
    BranchB, which differs in case only, is not found. *)
Lemma validateLocalRepository_branch_lookup_witness :
  parseBranchList (lit "* branchA" ++ [LF] ++ lit "  branchB")
  = [lit "branchA"; lit "branchB"]
  ∧ findPotentialConflicts
      (sample_env true sample_merge_base (Return {| data_files := None |}))
      {| owner := lit "test-owner"; repo := lit "test-repo";
         accessToken := lit "test-token"; localRepoPath := lit "/path/to/repo";
         branchA := lit "branchA"; branchB := lit "BranchB" |} []
    = (Return (failure (Some (lit "Branch '" ++ lit "BranchB"
                              ++ lit "' does not exist locally"))),
       sample_validated_history).
Proof.
  split; [by vm_compute|].
  destruct (validateLocalRepository_branch_lookup
              (sample_env true sample_merge_base (Return {| data_files := None |}))
              {| owner := lit "test-owner"; repo := lit "test-repo";
                 accessToken := lit "test-token"; localRepoPath := lit "/path/to/repo";
                 branchA := lit "branchA"; branchB := lit "BranchB" |}
              [ExistsSync (lit "/path/to/repo")]
              (ExecString (lit "true"))
              (ExecString (lit "* branchA" ++ [LF] ++ lit "  branchB")))
    as (_ & _ & _ & _ & Hmissing); [by vm_compute..|].
  destruct Hmissing as (_ & _ & Hrun);
    [by apply (proj1 (bool_decide_eq_false _)); vm_compute|].
  apply (Hrun [] None); by vm_compute.
Defined.

(** ** The remote collector *)

(** A rejection flagged [isAxiosError]: the status is printed as the
    template literal prints it, [undefined] when there is none. *)
Lemma getRemoteChanges_axios_error
    (env : Env) (config : GitConflictDetectorConfig) (mergeBase : jsstring)
    (h : history) (e : thrown) :
  compare_answer env config h mergeBase = Throw e →
  isAxiosError e = true →
  getRemoteChanges env config mergeBase h
  = (Throw (new_Error
       (lit "GitHub API error ("
        ++ match response_status e with
           | Some code => number_to_string (status_number code)
           | None => lit "undefined"
           end
        ++ lit "): " ++ template (or_else (response_data_message e) (message e)))),
     h ++ [compareRequest config mergeBase]).
Proof.
  intros Hanswer Haxios. rewrite getRemoteChanges_run, Hanswer, Haxios.
  by destruct (response_status e).
Qed.

(** Status 404 with the service message "Not Found". *)
Example getRemoteChanges_not_found :
  getRemoteChanges (sample_env true sample_merge_base (Throw not_found_error))
    sample_config sample_merge_base sample_validated_history
  = (Throw (new_Error (lit "GitHub API error (404): Not Found")),
     sample_validated_history ++ [compareRequest sample_config sample_merge_base])
  ∧ includes (lit "GitHub API error (404): Not Found") (lit "GitHub API error (404)")
    = true
  ∧ includes (lit "GitHub API error (404): Not Found") (lit "Not Found") = true.
Proof. by vm_compute. Qed.

(** C8, at the rejection [{isAxiosError: true, message: 'Network Error'}]
    of the test suite, which carries no status: the code position of the
    message reads [undefined], the message does not contain "Unknown", and
    this message is the error of the run. *)
Theorem getRemoteChanges_absent_status_prints_undefined :
  getRemoteChanges (sample_env true sample_merge_base (Throw network_error))
    sample_config sample_merge_base sample_validated_history
  = (Throw (new_Error (lit "GitHub API error (undefined): Network Error")),
     sample_validated_history ++ [compareRequest sample_config sample_merge_base])
  ∧ (∃ h', findPotentialConflicts
             (sample_env true sample_merge_base (Throw network_error))
             sample_config []
           = (Return (failure (Some (lit "GitHub API error (undefined): Network Error"))),
              h'))
  ∧ includes (lit "GitHub API error (undefined): Network Error") (lit "Unknown")
    = false
  ∧ includes (lit "GitHub API error (undefined): Network Error")
      (lit "GitHub API error (Unknown): Network Error") = false.
Proof.
  split_and!; [by vm_compute| |by vm_compute..].
  eexists. by vm_compute.
Qed.

(** C9. Let the run reach the remote collector and the comparison
    succeed. A body without a [files] array is read as an empty list of
    changes, and the result has no conflict and no error; a [files] array
    gives one entry per element, with the path and the status word it
    reports, in the same order. *)
Theorem getRemoteChanges_files_optional
    (env : Env) (config : GitConflictDetectorConfig) (h hv hm hl : history)
    (mergeBase : jsstring) (localChanges : list FileChange) (response : response) :
  validated env config h hv →
  findMergeBaseCommit env config hv = (Return mergeBase, hm) →
  getLocalChanges env config mergeBase hm = (Return localChanges, hl) →
  compare_answer env config hl mergeBase = Return response →
  let hr := hl ++ [compareRequest config mergeBase] in
  (data_files response = None →
   getRemoteChanges env config mergeBase hl = (Return [], hr)
   ∧ findPotentialConflicts env config h
     = (Return {| potentialConflicts := []; mergeBaseCommit := mergeBase;
                  error := None |}, hr))
  ∧ (∀ files, data_files response = Some files →
       getRemoteChanges env config mergeBase hl = (Return (remote_change <$> files), hr)
       ∧ length (remote_change <$> files) = length files
       ∧ (∀ i file, files !! i = Some file →
            (remote_change <$> files) !! i
            = Some {| filename := api_filename file; status := api_status file |})
       ∧ findPotentialConflicts env config h
         = (Return {| potentialConflicts :=
                        findCommonChanges localChanges (remote_change <$> files);
                      mergeBaseCommit := mergeBase; error := None |}, hr)).
Proof.
  intros Hv Hm Hl Hanswer hr.
  pose proof (getRemoteChanges_run env config mergeBase hl) as Hg.
  rewrite Hanswer in Hg. fold hr in Hg.
  pose proof (findPotentialConflicts_validated env config h hv Hv) as Hrun.
  rewrite Hm, Hl in Hrun.
  split.
  - intros Hnone. rewrite Hnone in Hg. simpl in Hg. split; [done|].
    by rewrite Hrun, Hg.
  - intros files Hsome. rewrite Hsome in Hg. simpl in Hg.
    split; [done|]. split; [apply length_fmap|]. split; [|by rewrite Hrun, Hg].
    intros i file Hi. by rewrite list_lookup_fmap, Hi.
Qed.

(** The sample world with a body that has no [files] property, and with
    the two files of the test suite. *)
Lemma getRemoteChanges_files_optional_witness :
  findPotentialConflicts
    (sample_env true sample_merge_base (Return {| data_files := None |}))
    sample_config []
  = (Return {| potentialConflicts := []; mergeBaseCommit := sample_merge_base;
               error := None |},
     sample_validated_history
     ++ [gitRequest sample_config (mergeBaseCommand sample_config);
         gitRequest sample_config (diffCommand sample_config sample_merge_base);
         compareRequest sample_config sample_merge_base])
  ∧ getRemoteChanges
      (sample_env true sample_merge_base (Return {| data_files := Some sample_files |}))
      sample_config sample_merge_base
      (sample_validated_history
       ++ [gitRequest sample_config (mergeBaseCommand sample_config);
           gitRequest sample_config (diffCommand sample_config sample_merge_base)])
    = (Return [ {| filename := lit "src/file1.js"; status := lit "modified" |};
                {| filename := lit "src/file4.js"; status := lit "added" |} ],
       sample_validated_history
       ++ [gitRequest sample_config (mergeBaseCommand sample_config);
           gitRequest sample_config (diffCommand sample_config sample_merge_base);
           compareRequest sample_config sample_merge_base]).
Proof.
  split.
  - refine (proj2 (proj1 (getRemoteChanges_files_optional
        (sample_env true sample_merge_base (Return {| data_files := None |}))
        sample_config [] sample_validated_history
        (sample_validated_history
         ++ [gitRequest sample_config (mergeBaseCommand sample_config)])
        (sample_validated_history
         ++ [gitRequest sample_config (mergeBaseCommand sample_config);
             gitRequest sample_config (diffCommand sample_config sample_merge_base)])
        sample_merge_base (parseGitDiffOutput sample_diff)
        {| data_files := None |} _ _ _ _) _)); try by vm_compute.
    exists None, [ExistsSync (lit "/path/to/repo")], None. by vm_compute.
  - refine (proj1 (proj2 (getRemoteChanges_files_optional
        (sample_env true sample_merge_base (Return {| data_files := Some sample_files |}))
        sample_config [] sample_validated_history
        (sample_validated_history
         ++ [gitRequest sample_config (mergeBaseCommand sample_config)])
        (sample_validated_history
         ++ [gitRequest sample_config (mergeBaseCommand sample_config);
             gitRequest sample_config (diffCommand sample_config sample_merge_base)])
        sample_merge_base (parseGitDiffOutput sample_diff)
        {| data_files := Some sample_files |} _ _ _ _) sample_files _));
      try by vm_compute.
    exists None, [ExistsSync (lit "/path/to/repo")], None. by vm_compute.
Defined.

(** ** The scenarios of the test suite *)

(** "should return potential conflicts successfully" *)
Example findPotentialConflicts_sample_run :
  findPotentialConflicts
    (sample_env true sample_merge_base (Return {| data_files := Some sample_files |}))
    sample_config []
  = (Return {| potentialConflicts := [lit "src/file1.js"];
               mergeBaseCommit := sample_merge_base;
               error := None |},
     sample_validated_history
     ++ [gitRequest sample_config (mergeBaseCommand sample_config);
         gitRequest sample_config (diffCommand sample_config sample_merge_base);
         compareRequest sample_config sample_merge_base]).
Proof. by vm_compute. Qed.

(** "should handle git command execution errors" *)
Example findPotentialConflicts_permission_denied :
  ∃ msg h',
    findPotentialConflicts denied_env sample_config []
    = (Return (failure (Some msg)), h')
    ∧ msg = lit "Invalid git repository at /path/to/repo: "
            ++ lit "Git command failed: git rev-parse --is-inside-work-tree - "
            ++ lit "Permission denied"
    ∧ includes msg (lit "Git command failed") = true.
Proof. eexists _, _. by vm_compute. Qed.

(** "should handle GitHub API errors with status code" *)
Example findPotentialConflicts_not_found :
  ∃ h',
    findPotentialConflicts
      (sample_env true sample_merge_base (Throw not_found_error)) sample_config []
    = (Return (failure (Some (lit "GitHub API error (404): Not Found"))), h').
Proof. eexists. by vm_compute. Qed.

(** * Further properties of the code *)

(** ** The conflict intersector, continued *)

Lemma fmap_filter_filename (names : list jsstring) (R : list FileChange) :
  filename <$> filter (λ change, filename change ∈ names) R
  = filter (λ p, p ∈ names) (filename <$> R).
Proof.
  induction R as [|c R IH]; [done|].
  rewrite fmap_cons, !filter_cons.
  case_decide; by rewrite ?fmap_cons, IH.
Qed.

(** X1. A path is reported exactly when both lists have it, so the two
    orders of the arguments report the same paths (in different orders);
    the result is never longer than the remote list and repeats a path
    only if the remote list does. *)
Theorem findCommonChanges_membership (L R : list FileChange) :
  (∀ p, p ∈ findCommonChanges L R ↔ p ∈ filename <$> L ∧ p ∈ filename <$> R)
  ∧ (∀ p, p ∈ findCommonChanges L R ↔ p ∈ findCommonChanges R L)
  ∧ (length (findCommonChanges L R) ≤ length R)%nat
  ∧ (NoDup (filename <$> R) → NoDup (findCommonChanges L R)).
Proof.
  assert (∀ A B p, p ∈ findCommonChanges A B
                   ↔ p ∈ filename <$> A ∧ p ∈ filename <$> B) as Hmem.
  { intros A B p. rewrite findCommonChanges_filter, fmap_filter_filename.
    by rewrite list_elem_of_filter. }
  split; [apply Hmem|]. split; [|split].
  - intros p. rewrite !Hmem. tauto.
  - rewrite findCommonChanges_filter, length_fmap. apply length_filter.
  - intros Hnd. rewrite findCommonChanges_filter, fmap_filter_filename.
    by apply NoDup_filter.
Qed.

(** X2. The result depends on the local list through the set of its
    paths only, and on the remote list through the sequence of its paths
    only: the change kinds on either side, and the order and repetitions
    of the local list, do not matter. *)
Theorem findCommonChanges_paths_only (L L' R R' : list FileChange) :
  (∀ p, p ∈ filename <$> L ↔ p ∈ filename <$> L') →
  filename <$> R = filename <$> R' →
  findCommonChanges L R = findCommonChanges L' R'.
Proof.
  intros HL HR. rewrite !findCommonChanges_filter, !fmap_filter_filename, HR.
  apply list_filter_iff. intros p. apply HL.
Qed.

Lemma findCommonChanges_paths_only_witness :
  findCommonChanges
    [ {| filename := file1_js; status := lit "M" |};
      {| filename := file2_js; status := lit "A" |} ]
    [ {| filename := file2_js; status := lit "modified" |};
      {| filename := file3_js; status := lit "added" |} ]
  = findCommonChanges
      [ {| filename := file2_js; status := lit "D" |};
        {| filename := file1_js; status := lit "R100" |};
        {| filename := file2_js; status := lit "M" |} ]
      [ {| filename := file2_js; status := lit "renamed" |};
        {| filename := file3_js; status := lit "removed" |} ].
Proof.
  apply findCommonChanges_paths_only; [|by vm_compute].
  intros p. cbn [fmap list_fmap filename].
  rewrite !elem_of_cons, !elem_of_nil. tauto.
Defined.

(** ** The diff parser, continued *)

(** A closed fact about concrete strings, by evaluation. *)
Local Ltac closed_fact :=
  lazymatch goal with
  | |- _ ∉ _ => apply (proj1 (bool_decide_eq_false _)); vm_compute; reflexivity
  | |- ∀ c, _ = Some c → _ => intros c; vm_compute; intros [= <-]; reflexivity
  | |- _ ≠ _ => vm_compute; intros [=]
  | |- _ => vm_compute; reflexivity
  end.

(** [tac] on each element of a [Forall] over a list given in full. *)
Local Ltac forall_each tac :=
  lazymatch goal with
  | |- Forall _ [] => constructor
  | |- Forall _ (_ :: _) => constructor; [tac|forall_each tac]
  end.

Lemma split_app_cons sep a b :
  sep ∉ a → split sep (a ++ sep :: b) = a :: split sep b.
Proof.
  induction a as [|c a IH]; simpl; intros Hfree.
  - by rewrite decide_True.
  - apply not_elem_of_cons in Hfree as [Hc Ha].
    rewrite decide_False by done. by rewrite IH.
Qed.

(** Splitting what was joined gives the fields back. *)
Lemma split_join sep fields :
  fields ≠ [] → Forall (λ f, sep ∉ f) fields →
  split sep (join [sep] fields) = fields.
Proof.
  intros Hne Hfree. induction Hfree as [|p ps Hp Hps IH]; [done|].
  destruct ps as [|q ps].
  - simpl. by apply split_free.
  - rewrite join_cons_cons. simpl. rewrite split_app_cons by done.
    f_equal. by apply IH.
Qed.

Lemma head_join sep p ps : p ≠ [] → head (join sep (p :: ps)) = head p.
Proof. destruct p as [|c p]; [done|]. by destruct ps. Qed.

Lemma last_join sep ls l : l ≠ [] → last (join sep (ls ++ [l])) = last l.
Proof.
  intros Hl. induction ls as [|p ls IH]; [done|].
  rewrite <- app_comm_cons.
  destruct (ls ++ [l]) as [|q qs] eqn:Hq; [by destruct ls|].
  rewrite join_cons_cons, !last_app, IH.
  by apply last_is_Some in Hl as [c ->].
Qed.

Lemma join_tidy lines :
  lines ≠ [] → Forall tidy_line lines →
  join [LF] lines ≠ [] ∧ no_outer_white_space (join [LF] lines).
Proof.
  intros Hne Hlines.
  destruct lines as [|p ps]; [done|].
  pose proof (Forall_inv Hlines) as (Hp & _ & Hhead & _).
  split; [|split].
  - destruct p; [done|]. by destruct ps.
  - intros c. rewrite head_join by done. apply Hhead.
  - destruct (p :: ps) as [|l ls _] using rev_ind; [done|].
    apply Forall_app in Hlines as [_ Hl].
    apply Forall_inv in Hl as (Hl & _ & _ & Hlast).
    intros c. rewrite last_join by done. apply Hlast.
Qed.

(** The parser on tidy lines joined by newlines, whatever white space
    follows: one entry per line. *)
Lemma parseGitDiffOutput_tidy lines ws :
  Forall tidy_line lines → white ws →
  parseGitDiffOutput (join [LF] lines ++ ws) = parseDiffLine <$> lines.
Proof.
  intros Hlines Hws. unfold parseGitDiffOutput. rewrite trim_app_white_r by done.
  destruct (decide (lines = [])) as [->|Hne]; [done|].
  destruct (join_tidy lines Hne Hlines) as [Hjoin Htrim].
  rewrite (trim_id _ Htrim), decide_True by done.
  rewrite split_join; [|done|].
  - f_equal. clear Hne Hjoin Htrim.
    induction Hlines as [|l ls [Hl _] _ IH]; [done|].
    by rewrite filter_cons, decide_True, IH.
  - eapply Forall_impl; [exact Hlines|]. by intros l (_ & Hl & _).
Qed.

Lemma renderDiffLine_tidy change :
  well_formed_change change → tidy_line (renderDiffLine change).
Proof.
  intros (Hs & Htab & Hlf & Hhead & Hf & Hflf & Hlast).
  unfold tidy_line, renderDiffLine. split_and!.
  - by destruct (status change).
  - rewrite !elem_of_app, list_elem_of_singleton. intros [?|[?|?]]; done.
  - split; intros c.
    + rewrite head_app. destruct (status change); [done|]. apply Hhead.
    + rewrite !last_app. apply last_is_Some in Hf as [d Hd]. rewrite Hd.
      intros [= <-]. by apply Hlast.
Qed.

Lemma parseDiffLine_renderDiffLine change :
  well_formed_change change → parseDiffLine (renderDiffLine change) = change.
Proof.
  intros Hwf. pose proof (renderDiffLine_tidy change Hwf) as (_ & _ & Htrim).
  destruct Hwf as (_ & Htab & _).
  unfold parseDiffLine. rewrite (trim_id _ Htrim). unfold renderDiffLine. simpl.
  rewrite split_app_cons by done. rewrite join_split. by destruct change.
Qed.

(** X3. The parser inverts the format: the output [git diff --name-status]
    prints for a list of well-formed changes, with or without a final
    newline or other white space after it, parses to that list. *)
Theorem parseGitDiffOutput_renderDiff (changes : list FileChange) (ws : jsstring) :
  Forall well_formed_change changes → white ws →
  parseGitDiffOutput (renderDiff changes ++ ws) = changes.
Proof.
  intros Hwf Hws. unfold renderDiff. rewrite parseGitDiffOutput_tidy; [| |done].
  - rewrite <- list_fmap_compose. rewrite <- (list_fmap_id changes) at 2.
    apply Forall_fmap_ext_1. eapply Forall_impl; [exact Hwf|].
    intros change. apply parseDiffLine_renderDiffLine.
  - apply Forall_fmap. eapply Forall_impl; [exact Hwf|].
    intros change. apply renderDiffLine_tidy.
Qed.

Lemma parseGitDiffOutput_renderDiff_witness :
  parseGitDiffOutput
    (renderDiff [ {| filename := lit "src/a b.js"; status := lit "M" |};
                  {| filename := lit "old.js" ++ [TAB] ++ lit "new.js";
                     status := lit "R100" |} ] ++ [LF])
  = [ {| filename := lit "src/a b.js"; status := lit "M" |};
      {| filename := lit "old.js" ++ [TAB] ++ lit "new.js"; status := lit "R100" |} ].
Proof.
  apply parseGitDiffOutput_renderDiff.
  - forall_each ltac:(unfold well_formed_change; split_and!; closed_fact).
  - forall_each ltac:(reflexivity).
Defined.

Lemma trim_elem_of c s : c ∈ trim s → c ∈ s.
Proof.
  destruct (trim_decompose s) as (w1 & w2 & Hs & _). intros Hc.
  rewrite Hs, !elem_of_app. auto.
Qed.

(** X4. What every entry of the parser's result looks like: the kind has
    no tab, neither field has a newline, the kind does not start and the
    path does not end with white space, and an entry with an empty kind
    has an empty path. *)
Theorem parseGitDiffOutput_entry_shape (output : jsstring) (entry : FileChange) :
  entry ∈ parseGitDiffOutput output →
  (TAB ∉ status entry) ∧ (LF ∉ status entry) ∧ (LF ∉ filename entry)
  ∧ (∀ c, head (status entry) = Some c → is_white_space c = false)
  ∧ (∀ c, last (filename entry) = Some c → is_white_space c = false)
  ∧ (status entry = [] → filename entry = []).
Proof.
  unfold parseGitDiffOutput. case_decide; [|by intros ?%elem_of_nil].
  intros (line & -> & [_ Hline]%list_elem_of_filter)%list_elem_of_fmap.
  apply split_fields_free in Hline.
  assert (LF ∉ trim line) as Hlf by (by intros ?%trim_elem_of).
  destruct (trim_no_outer_white_space line) as [Hhead Hlast].
  destruct (parseDiffLine_fields line) as (Htab & Hno & Hyes).
  destruct (decide (TAB ∈ trim line)) as [Hin|Hout].
  - specialize (Hyes Hin). rewrite Hyes in Hlf, Hhead, Hlast.
    rewrite !not_elem_of_app in Hlf. destruct Hlf as (? & _ & ?).
    assert (status (parseDiffLine line) ≠ []) as Hne.
    { intros Hnil. rewrite Hnil in Hhead. by specialize (Hhead TAB eq_refl). }
    split_and!; try done.
    + intros c Hc. apply Hhead. rewrite head_app. by rewrite Hc.
    + intros c Hc. apply Hlast. rewrite !last_app. by rewrite Hc.
  - destruct (Hno Hout) as [Hs Hf]. rewrite Hs, Hf.
    split_and!; try done. by intros ?%elem_of_nil.
Qed.

Lemma parseGitDiffOutput_entry_shape_witness :
  let entry := {| filename := lit "src/file" ++ [TAB] ++ lit "with" ++ [TAB]
                              ++ lit "tabs.js";
                  status := lit "M" |} in
  (TAB ∉ status entry) ∧ (LF ∉ status entry) ∧ (LF ∉ filename entry)
  ∧ (∀ c, head (status entry) = Some c → is_white_space c = false)
  ∧ (∀ c, last (filename entry) = Some c → is_white_space c = false)
  ∧ (status entry = [] → filename entry = []).
Proof.
  intros entry. apply (parseGitDiffOutput_entry_shape tabbed_line entry).
  assert (parseGitDiffOutput tabbed_line = [entry]) as -> by by vm_compute.
  by left.
Defined.

Lemma split_cons_ne sep c s :
  c ≠ sep → ∃ f fs, split sep (c :: s) = (c :: f) :: fs.
Proof.
  intros Hc. simpl. rewrite decide_False by done.
  destruct (split sep s); by eexists _, _.
Qed.

Lemma parseGitDiffOutput_trim output :
  parseGitDiffOutput (trim output) = parseGitDiffOutput output.
Proof. unfold parseGitDiffOutput. by rewrite trim_idemp. Qed.

(** X5. The white space around the whole output is ignored, and the
    result is empty exactly when the output is blank. *)
Theorem parseGitDiffOutput_blank_output (output : jsstring) :
  (parseGitDiffOutput output = [] ↔ blank output)
  ∧ (∀ w1 w2, white w1 → white w2 →
       parseGitDiffOutput (w1 ++ output ++ w2) = parseGitDiffOutput output).
Proof.
  split.
  - unfold parseGitDiffOutput, blank. case_decide as Hout.
    + split; [|done]. intros Hnil. exfalso.
      destruct (trim_no_outer_white_space output) as [Hhead _].
      destruct (trim output) as [|c r] eqn:Ht; [done|].
      specialize (Hhead c eq_refl).
      assert (c ≠ LF) as Hc by (by intros ->).
      destruct (split_cons_ne LF c r Hc) as (f & fs & Hsplit).
      by rewrite Hsplit, filter_cons, decide_True in Hnil.
    + apply dec_stable in Hout. by rewrite Hout.
  - intros w1 w2 Hw1 Hw2.
    rewrite <- (parseGitDiffOutput_trim (w1 ++ _)), <- (parseGitDiffOutput_trim output).
    by rewrite trim_app_white_l, trim_app_white_r.
Qed.

(** ** The branch list, continued *)

Lemma parseBranchList_cons line rest :
  LF ∉ line →
  parseBranchList (line ++ LF :: rest)
  = filter truthy [stripCurrentMarker (trim line)] ++ parseBranchList rest.
Proof.
  intros Hline. unfold parseBranchList. rewrite split_app_cons by done.
  rewrite fmap_cons, !filter_cons, filter_nil. by case_decide.
Qed.

Lemma renderBranchLine_name branch :
  well_formed_branch branch.2 →
  (LF ∉ renderBranchLine branch)
  ∧ stripCurrentMarker (trim (renderBranchLine branch)) = branch.2.
Proof.
  destruct branch as [current name]. simpl.
  intros (Hne & Hlf & [Hhead Hlast] & Hstar). unfold renderBranchLine. simpl.
  assert (LF ≠ STAR ∧ LF ≠ SPACE) as [? ?] by done.
  assert (∀ a b d, last (a :: b :: name) = Some d → last name = Some d) as Hlast'.
  { intros a b d. rewrite !last_cons.
    apply last_is_Some in Hne as [x ->]. done. }
  split.
  - destruct current; simpl; rewrite !not_elem_of_cons; by split_and!.
  - destruct current; simpl.
    + rewrite trim_id.
      * apply (stripCurrentMarker_marked [SPACE]); [by repeat constructor|done].
      * split; intros d; [by intros [= <-]|].
        intros Hd%Hlast'. by apply Hlast.
    + change (SPACE :: SPACE :: name) with ([SPACE; SPACE] ++ name).
      rewrite (trim_app_white_l [SPACE; SPACE] name) by by repeat constructor.
      rewrite trim_id by done. by apply stripCurrentMarker_unmarked.
Qed.

(** X6. The branch list parser inverts the format: the output
    [git branch --list] prints for a list of well-formed branch names,
    whichever of them is checked out, parses to these names in order. *)
Theorem parseBranchList_renderBranchList (branches : list (bool * jsstring)) :
  Forall (λ branch, well_formed_branch branch.2) branches →
  parseBranchList (renderBranchList branches) = snd <$> branches.
Proof.
  induction 1 as [|branch branches Hwf _ IH]; [done|].
  unfold renderBranchList in *. rewrite fmap_cons. simpl. rewrite <- app_assoc. simpl.
  destruct (renderBranchLine_name branch Hwf) as [Hlf Hname].
  rewrite parseBranchList_cons, Hname, IH by done.
  destruct Hwf as [Hne _]. by rewrite filter_cons, decide_True.
Qed.

Lemma parseBranchList_renderBranchList_witness :
  parseBranchList
    (renderBranchList [(false, lit "dev"); (true, lit "feature/x-1"); (false, lit "main")])
  = [lit "dev"; lit "feature/x-1"; lit "main"].
Proof.
  apply (parseBranchList_renderBranchList
           [(false, lit "dev"); (true, lit "feature/x-1"); (false, lit "main")]).
  forall_each ltac:(unfold well_formed_branch, no_outer_white_space; split_and!;
                    closed_fact).
Defined.

Lemma trimStart_elem_of c s : c ∈ trimStart s → c ∈ s.
Proof.
  destruct (trimStart_suffix s) as (ws & Hs & _). intros Hc.
  rewrite Hs, elem_of_app. auto.
Qed.

Lemma trimStart_last s c : last (trimStart s) = Some c → last s = Some c.
Proof.
  destruct (trimStart_suffix s) as (ws & Hs & _). intros Hc.
  rewrite Hs at 1. rewrite last_app. by rewrite Hc.
Qed.

(** X7. Every name the branch list parser returns is not empty, has no
    newline and no white space at either end; hence a name with a newline
    or with white space at an end is never among them, whatever the
    listing. *)
Theorem parseBranchList_name_shape (output : jsstring) :
  (∀ name, name ∈ parseBranchList output →
     name ≠ [] ∧ (LF ∉ name) ∧ no_outer_white_space name)
  ∧ (∀ name, LF ∈ name ∨ ¬ no_outer_white_space name →
     name ∉ parseBranchList output).
Proof.
  assert (∀ name, name ∈ parseBranchList output →
            name ≠ [] ∧ (LF ∉ name) ∧ no_outer_white_space name) as Hshape.
  { intros name (Hne & line & Hline & <-)%elem_of_parseBranchList.
    split; [done|].
    apply split_fields_free in Hline.
    assert (LF ∉ trim line) as Hlf by (by intros ?%trim_elem_of).
    destruct (trim_no_outer_white_space line) as [Hhead Hlast].
    unfold stripCurrentMarker in *.
    destruct (trim line) as [|c rest]; [done|].
    case_decide as Hc; [|done]. subst c. split; [|split].
    - intros Hin%trimStart_elem_of. apply Hlf. by right.
    - apply trimStart_head.
    - intros d Hd%trimStart_last. apply Hlast.
      rewrite last_cons. by rewrite Hd. }
  split; [done|].
  intros name Hbad Hin. destruct (Hshape name Hin) as (_ & ? & ?).
  by destruct Hbad.
Qed.

(** ** The configuration validator, continued *)

Lemma first_missing_cases (config : GitConflictDetectorConfig) :
  (first_missing config = None ∧ all_fields_present config)
  ∨ (∃ msg, first_missing config = Some msg ∧ msg ≠ []
            ∧ ¬ all_fields_present config).
Proof.
  unfold first_missing, required_fields, all_fields_present.
  cbn [List.find fst snd].
  repeat (case_bool_decide;
          [right; eexists; split; [simpl; reflexivity|]; split;
             [apply lit_truthy'|by intros (?&?&?&?&?&?)]|]).
  left. by split_and!.
Qed.

(** X8. The configuration validator always returns; it returns no error
    exactly when the six fields are not empty and the local path exists;
    an error it returns is never the empty string; and the file system is
    asked once when the six fields are there, and not at all otherwise. *)
Theorem validateConfig_accepts
    (env : Env) (config : GitConflictDetectorConfig) (h : history) :
  ∃ configError h1,
    validateConfig env config h = (Return configError, h1)
    ∧ (configError = None
       ↔ all_fields_present config
         ∧ fs_existsSync env h (localRepoPath config) = true)
    ∧ (∀ msg, configError = Some msg → msg ≠ [])
    ∧ (all_fields_present config → h1 = h ++ [ExistsSync (localRepoPath config)])
    ∧ (¬ all_fields_present config → h1 = h).
Proof.
  rewrite validateConfig_run.
  destruct (first_missing_cases config) as [[-> Hall]|(msg & -> & Hmsg & Hnot)].
  - eexists _, _. split; [done|].
    split; [|split; [|split]]; [| |done|done].
    + destruct (fs_existsSync env h (localRepoPath config)).
      * by split.
      * split; [done|]. by intros [_ ?].
    + intros msg. destruct (fs_existsSync env h (localRepoPath config)); [done|].
      intros [= <-]. apply lit_truthy.
  - eexists _, _. split; [done|].
    split; [|split; [|split]]; [| |done|done].
    + split; [done|]. by intros [? _].
    + by intros ? [= <-].
Qed.

(** ** The orchestration, continued *)

Local Ltac trace_prefix :=
  first [ left; eexists; simpl; reflexivity
        | right; split; [eexists; simpl; reflexivity|eassumption] ].

Lemma full_trace_NoDup (config : GitConflictDetectorConfig) (mergeBase : jsstring) :
  NoDup (full_trace config mergeBase).
Proof.
  apply (NoDup_fmap_1 event_kind). apply (bool_decide_unpack _). by vm_compute.
Qed.

Lemma trace_without_listing_NoDup
    (config : GitConflictDetectorConfig) (mergeBase : jsstring) :
  NoDup (trace_without_listing config mergeBase).
Proof.
  apply (NoDup_fmap_1 event_kind). apply (bool_decide_unpack _). by vm_compute.
Qed.

(** The validators pass without the branch listing only when
    [git rev-parse] throws a value that is not an [Error] and whose string
    is empty. *)
Lemma validated_listing
    (env : Env) (config : GitConflictDetectorConfig) (h hv : history) :
  validated env config h hv →
  hv = h ++ [ExistsSync (localRepoPath config);
             gitRequest config revParseCommand;
             gitRequest config branchListCommand]
  ∨ (hv = h ++ [ExistsSync (localRepoPath config);
                gitRequest config revParseCommand]
     ∧ ∃ e, git_answer env config (h ++ [ExistsSync (localRepoPath config)])
              revParseCommand = Throw e
            ∧ instanceof_Error e = false ∧ to_String e = Converted []).
Proof.
  intros (ce & h1 & re & Hc & Hce & Hr & Hre).
  apply validateConfig_history in Hc as [[? _]| ->]; [done|].
  rewrite validateLocalRepository_run in Hr.
  destruct (git_answer env config _ revParseCommand) as [v1|e1] eqn:H1.
  - left. destruct (git_answer env config _ branchListCommand) as [v2|e2];
      injection Hr as _ <-; by rewrite <- app_assoc.
  - right. injection Hr as Hinv <-. split; [by rewrite <- app_assoc|].
    exists e1. split; [done|]. revert Hinv. unfold invalid_repository.
    destruct (instanceof_Error e1).
    { intros [= <-]. destruct Hre. apply lit_truthy. }
    split; [done|]. destruct (to_String e1) as [text|fault]; [|done].
    injection Hinv as <-. f_equal. by apply dec_stable.
Qed.

(** X9. The external calls of a run come in one fixed order and none is
    made twice: the calls made are an initial part of the sequence
    existsSync, rev-parse, branch --list, merge-base, diff, compare (the
    last two for one and the same identifier), or of that sequence without
    the branch listing; the listing is left out only when [git rev-parse]
    threw a value that is not an [Error] and whose string is empty. *)
Theorem findPotentialConflicts_call_order
    (env : Env) (config : GitConflictDetectorConfig) (h : history) :
  ∃ o events mergeBase,
    findPotentialConflicts env config h = (o, h ++ events)
    ∧ NoDup events
    ∧ (events `prefix_of` full_trace config mergeBase
       ∨ (events `prefix_of` trace_without_listing config mergeBase
          ∧ ∃ e, git_answer env config (h ++ [ExistsSync (localRepoPath config)])
                   revParseCommand = Throw e
                 ∧ instanceof_Error e = false ∧ to_String e = Converted [])).
Proof.
  cut (∃ o events mergeBase,
         findPotentialConflicts env config h = (o, h ++ events)
         ∧ (events `prefix_of` full_trace config mergeBase
            ∨ (events `prefix_of` trace_without_listing config mergeBase
               ∧ ∃ e, git_answer env config (h ++ [ExistsSync (localRepoPath config)])
                        revParseCommand = Throw e
                      ∧ instanceof_Error e = false ∧ to_String e = Converted []))).
  { intros (o & events & mb & Heq & Hp). exists o, events, mb.
    split; [done|]. split; [|done].
    destruct Hp as [[k Hk]|[[k Hk] _]].
    - pose proof (full_trace_NoDup config mb) as Hnd. rewrite Hk in Hnd.
      by apply NoDup_app in Hnd as [? _].
    - pose proof (trace_without_listing_NoDup config mb) as Hnd. rewrite Hk in Hnd.
      by apply NoDup_app in Hnd as [? _]. }
  destruct (validateConfig_returns env config h) as (ce & h1 & Hc).
  destruct (decide (truthy_value ce)) as [Hce|Hce].
  { destruct ce as [msg|]; [|done].
    pose proof (findPotentialConflicts_config_error env config _ _ _ Hc Hce) as Hrun.
    apply validateConfig_history in Hc as [[_ ->]| ->].
    - exists (Return (failure (Some msg))), [], []. rewrite app_nil_r.
      split; [done|]. trace_prefix.
    - eexists _, _, []. split; [exact Hrun|]. trace_prefix. }
  destruct (validateLocalRepository env config h1) as [[re|e] hv] eqn:Hr; last first.
  { pose proof (findPotentialConflicts_repository_fault env config _ _ _ _ _
                  Hc Hce Hr) as Hrun.
    apply validateConfig_history in Hc as [[? _]| ->]; [done|].
    apply validateLocalRepository_history in Hr as [-> | ->];
      rewrite <- app_assoc in Hrun;
      (eexists _, _, []; split; [exact Hrun|]; trace_prefix). }
  destruct (decide (truthy_value re)) as [Hre|Hre].
  { destruct re as [msg|]; [|done].
    pose proof (findPotentialConflicts_repository_error env config _ _ _ _ _
                  Hc Hce Hr Hre) as Hrun.
    apply validateConfig_history in Hc as [[? _]| ->]; [done|].
    apply validateLocalRepository_history in Hr as [-> | ->];
      rewrite <- app_assoc in Hrun;
      (eexists _, _, []; split; [exact Hrun|]; trace_prefix). }
  assert (validated env config h hv) as Hv by by exists ce, h1, re.
  pose proof (findPotentialConflicts_validated env config h hv Hv) as Hrun.
  destruct (findMergeBaseCommit env config hv) as [[mb|e] hm] eqn:Hm; last first.
  { apply findMergeBaseCommit_throws in Hm as ->.
    apply validated_listing in Hv as [-> | [-> Hskip]];
      rewrite <- app_assoc in Hrun;
      (eexists _, _, []; split; [exact Hrun|]; trace_prefix). }
  apply findMergeBaseCommit_returns in Hm as (_ & _ & -> & _).
  destruct (getLocalChanges env config mb _) as [[L|e] hl] eqn:Hl; last first.
  { apply getLocalChanges_history in Hl as ->.
    apply validated_listing in Hv as [-> | [-> Hskip]];
      rewrite <- !app_assoc in Hrun;
      (eexists _, _, mb; split; [exact Hrun|]; trace_prefix). }
  apply getLocalChanges_history in Hl as ->.
  destruct (getRemoteChanges env config mb _) as [o hr] eqn:Hg.
  apply getRemoteChanges_history in Hg as ->.
  apply validated_listing in Hv as [-> | [-> Hskip]];
    rewrite <- !app_assoc in Hrun;
    (destruct o; eexists _, _, mb; (split; [exact Hrun|]); trace_prefix).
Qed.

(** X10. What a run without error is made of: both validators pass, the
    merge-base command prints an output that is not blank, the diff
    against the trimmed output and the comparison with it both succeed,
    in this order; the result then reports that identifier and the paths
    of the comparison's files that the parsed diff also has. A run that is
    not of this kind reports an error, or throws. *)
Theorem findPotentialConflicts_success
    (env : Env) (config : GitConflictDetectorConfig) (h h' : history)
    (result : ConflictDetectionResult) :
  findPotentialConflicts env config h = (Return result, h') ∧ error result = None
  ↔ ∃ hv vmb vdiff response,
      let mergeBase := trim (exec_output vmb) in
      let hm := hv ++ [gitRequest config (mergeBaseCommand config)] in
      let hl := hm ++ [gitRequest config (diffCommand config mergeBase)] in
      validated env config h hv
      ∧ git_answer env config hv (mergeBaseCommand config) = Return vmb
      ∧ mergeBase ≠ []
      ∧ git_answer env config hm (diffCommand config mergeBase) = Return vdiff
      ∧ compare_answer env config hl mergeBase = Return response
      ∧ result
        = {| potentialConflicts :=
               findCommonChanges (parseGitDiffOutput (exec_output vdiff))
                 (remote_change <$> default [] (data_files response));
             mergeBaseCommit := mergeBase;
             error := None |}
      ∧ h' = hl ++ [compareRequest config mergeBase].
Proof.
  split.
  - intros [Hrun Herr].
    destruct (findPotentialConflicts_run env config h) as (o & h'' & Heq & Hcases).
    rewrite Hrun in Heq. injection Heq as <- <-.
    inversion Hcases as [| | ? ? e ? _ _ _ Hb|? e ? _ _ Hb|? ? ? e ? _ _ _ Hb
                        |? ? ? ? ? e ? _ _ _ _ Hb
                        |hv mb hm L hl R hr Hv Hm Hl Hr]; subst; simpl in Herr;
      try done;
      try (apply boundary_result in Hb as (err & ->); done).
    rewrite findMergeBaseCommit_run in Hm.
    destruct (git_answer env config hv _) as [vmb|?] eqn:Hvmb; [|done].
    case_decide as Hmb; [|done]. injection Hm as <- <-.
    rewrite getLocalChanges_run in Hl.
    destruct (git_answer env config _ (diffCommand _ _)) as [vdiff|?] eqn:Hvd;
      [|done].
    injection Hl as <- <-.
    rewrite getRemoteChanges_run in Hr.
    destruct (compare_answer env config _ _) as [response|e0] eqn:Hresp.
    + injection Hr as <- <-. by exists hv, vmb, vdiff, response.
    + destruct (isAxiosError e0); [done|]. destruct (instanceof_Error e0); [done|].
      by destruct (to_String e0).
  - intros (hv & vmb & vdiff & response & Hv & Hvmb & Hmb & Hvd & Hresp & -> & ->).
    split; [|done].
    rewrite (findPotentialConflicts_validated env config h hv Hv).
    rewrite findMergeBaseCommit_run, Hvmb, decide_True by done.
    rewrite getLocalChanges_run, Hvd.
    by rewrite getRemoteChanges_run, Hresp.
Qed.

Lemma boundary_new_Error msg : boundary (new_Error msg) = Return (failure (Some msg)).
Proof. done. Qed.

(** ** Failures of the git commands *)

(** X11. When [git rev-parse] or [git branch --list] fails with an
    [Error], the repository validator does not throw: it returns a message
    that names the local path, the command and the failure, no later
    command is run, and the message is the error of the run. *)
Theorem validateLocalRepository_command_failure
    (env : Env) (config : GitConflictDetectorConfig) (h0 h : history)
    (e : thrown) (m : jsstring) :
  validateConfig env config h0 = (Return None, h) →
  instanceof_Error e = true →
  message e = Some m →
  let invalid (command : jsstring) :=
    lit "Invalid git repository at " ++ localRepoPath config ++ lit ": "
    ++ lit "Git command failed: git " ++ command ++ lit " - " ++ m in
  let h1 := h ++ [gitRequest config revParseCommand] in
  let h2 := h1 ++ [gitRequest config branchListCommand] in
  (git_answer env config h revParseCommand = Throw e →
   validateLocalRepository env config h = (Return (Some (invalid revParseCommand)), h1)
   ∧ findPotentialConflicts env config h0
     = (Return (failure (Some (invalid revParseCommand))), h1))
  ∧ (∀ v, git_answer env config h revParseCommand = Return v →
          git_answer env config h1 branchListCommand = Throw e →
     validateLocalRepository env config h
       = (Return (Some (invalid branchListCommand)), h2)
     ∧ findPotentialConflicts env config h0
       = (Return (failure (Some (invalid branchListCommand))), h2)).
Proof.
  intros Hc He Hm invalid h1 h2.
  assert (∀ command hv,
            validateLocalRepository env config h = (Return (Some (invalid command)), hv) →
            validateLocalRepository env config h = (Return (Some (invalid command)), hv)
            ∧ findPotentialConflicts env config h0
              = (Return (failure (Some (invalid command))), hv)) as Hrun.
  { intros command hv Hr. split; [done|].
    eapply findPotentialConflicts_repository_error; [exact Hc|by intros []|exact Hr|].
    apply lit_truthy. }
  split.
  - intros Hans. apply Hrun.
    unfold validateLocalRepository, try_catch, mbind, M_bind.
    rewrite execGitCommand_run. fold revParseCommand. rewrite Hans, He. simpl.
    by rewrite Hm.
  - intros v Hv Hans. apply Hrun.
    unfold validateLocalRepository, try_catch, mbind, M_bind.
    rewrite execGitCommand_run. fold revParseCommand. rewrite Hv.
    rewrite execGitCommand_run. fold branchListCommand. fold h1. rewrite Hans, He.
    simpl. by rewrite Hm.
Qed.

Lemma validateLocalRepository_command_failure_witness :
  findPotentialConflicts denied_env sample_config []
  = (Return (failure (Some
       (lit "Invalid git repository at " ++ lit "/path/to/repo" ++ lit ": "
        ++ lit "Git command failed: git " ++ revParseCommand ++ lit " - "
        ++ lit "Permission denied"))),
     [ExistsSync (lit "/path/to/repo"); gitRequest sample_config revParseCommand]).
Proof.
  refine (proj2 (proj1 (validateLocalRepository_command_failure
            denied_env sample_config [] [ExistsSync (lit "/path/to/repo")]
            (new_Error (lit "Permission denied")) (lit "Permission denied")
            _ _ _) _)); by vm_compute.
Defined.

(** X12. When the merge-base command fails, the run ends right after it.
    An [Error] is reported with the resolver's prefix before the command
    runner's message. A value that is not an [Error] is rethrown as it is:
    when it has a string, this string is the error, without a prefix; when
    it has none, what its conversion throws leaves
    [findPotentialConflicts]. *)
Theorem findMergeBaseCommit_command_failure
    (env : Env) (config : GitConflictDetectorConfig) (h hv : history) (e : thrown) :
  validated env config h hv →
  git_answer env config hv (mergeBaseCommand config) = Throw e →
  let hm := hv ++ [gitRequest config (mergeBaseCommand config)] in
  (instanceof_Error e = true →
   findPotentialConflicts env config h
   = (Return (failure (Some
        (lit "Failed to find merge base: "
         ++ lit "Git command failed: git " ++ mergeBaseCommand config
         ++ lit " - " ++ template (message e)))), hm))
  ∧ (∀ text, instanceof_Error e = false → to_String e = Converted text →
       findPotentialConflicts env config h = (Return (failure (Some text)), hm))
  ∧ (∀ fault, instanceof_Error e = false → to_String e = Fault fault →
       findPotentialConflicts env config h = (Throw fault, hm)).
Proof.
  intros Hv Hans hm.
  rewrite (findPotentialConflicts_validated env config h hv Hv).
  rewrite findMergeBaseCommit_run, Hans.
  split_and!.
  - by intros ->.
  - intros text He Hs. rewrite He. unfold boundary. by rewrite He, Hs.
  - intros fault He Hs. rewrite He. unfold boundary. by rewrite He, Hs.
Qed.

Lemma findMergeBaseCommit_command_failure_witness :
  findPotentialConflicts
    {| fs_existsSync := λ _ _, true;
       child_process_execSync := λ h command cwd,
         if includes command (lit "merge-base")
         then Throw (new_Error (lit "No merge base found"))
         else sample_execSync [] h command cwd;
       axios_get := λ _ _ _ _, Return {| data_files := None |} |}
    sample_config []
  = (Return (failure (Some
       (lit "Failed to find merge base: "
        ++ lit "Git command failed: git " ++ mergeBaseCommand sample_config
        ++ lit " - " ++ lit "No merge base found"))),
     sample_validated_history
     ++ [gitRequest sample_config (mergeBaseCommand sample_config)]).
Proof.
  refine (proj1 (findMergeBaseCommit_command_failure _ sample_config []
            sample_validated_history (new_Error (lit "No merge base found")) _ _) _).
  - exists None, [ExistsSync (lit "/path/to/repo")], None. by vm_compute.
  - by vm_compute.
  - by vm_compute.
Defined.

(** X13. When the diff command fails, the run ends right after it and the
    remote service is not contacted. An [Error] is reported with the
    collector's prefix before the command runner's message. A value that
    is not an [Error] is rethrown as it is: when it has a string, this
    string is the error; when it has none, what its conversion throws
    leaves [findPotentialConflicts]. *)
Theorem getLocalChanges_command_failure
    (env : Env) (config : GitConflictDetectorConfig) (h hv hm : history)
    (mergeBase : jsstring) (e : thrown) :
  validated env config h hv →
  findMergeBaseCommit env config hv = (Return mergeBase, hm) →
  git_answer env config hm (diffCommand config mergeBase) = Throw e →
  let hl := hm ++ [gitRequest config (diffCommand config mergeBase)] in
  (instanceof_Error e = true →
   findPotentialConflicts env config h
   = (Return (failure (Some
        (lit "Failed to get local changes: "
         ++ lit "Git command failed: git " ++ diffCommand config mergeBase
         ++ lit " - " ++ template (message e)))), hl))
  ∧ (∀ text, instanceof_Error e = false → to_String e = Converted text →
       findPotentialConflicts env config h = (Return (failure (Some text)), hl))
  ∧ (∀ fault, instanceof_Error e = false → to_String e = Fault fault →
       findPotentialConflicts env config h = (Throw fault, hl)).
Proof.
  intros Hv Hm Hans hl.
  rewrite (findPotentialConflicts_validated env config h hv Hv), Hm.
  rewrite getLocalChanges_run, Hans.
  split_and!.
  - by intros ->.
  - intros text He Hs. rewrite He. unfold boundary. by rewrite He, Hs.
  - intros fault He Hs. rewrite He. unfold boundary. by rewrite He, Hs.
Qed.

Lemma getLocalChanges_command_failure_witness :
  findPotentialConflicts
    {| fs_existsSync := λ _ _, true;
       child_process_execSync := λ h command cwd,
         if includes command (lit "diff --name-status")
         then Throw (new_Error (lit "bad revision"))
         else sample_execSync sample_merge_base h command cwd;
       axios_get := λ _ _ _ _, Return {| data_files := Some sample_files |} |}
    sample_config []
  = (Return (failure (Some
       (lit "Failed to get local changes: "
        ++ lit "Git command failed: git "
        ++ diffCommand sample_config sample_merge_base
        ++ lit " - " ++ lit "bad revision"))),
     sample_validated_history
     ++ [gitRequest sample_config (mergeBaseCommand sample_config);
         gitRequest sample_config (diffCommand sample_config sample_merge_base)]).
Proof.
  refine (proj1 (getLocalChanges_command_failure _ sample_config []
            sample_validated_history
            (sample_validated_history
             ++ [gitRequest sample_config (mergeBaseCommand sample_config)])
            sample_merge_base (new_Error (lit "bad revision")) _ _ _) _).
  - exists None, [ExistsSync (lit "/path/to/repo")], None. by vm_compute.
  - by vm_compute.
  - by vm_compute.
  - by vm_compute.
Defined.

(** ** Failures of the remote comparison *)

Lemma starts_with_other_head (a b : ascii) (s t : string) (x : jsstring) :
  N_of_ascii a ≠ N_of_ascii b →
  starts_with (lit (String a s)) (lit (String b t) ++ x) = false.
Proof.
  intros Hab. rewrite !lit_String. simpl. by rewrite bool_decide_eq_false_2.
Qed.



(** ** A thrown value that is not an [Error] *)

(** X15. Let [git rev-parse] throw a value that is not an [Error]. When
    the value has a string, the repository validator returns this string
    and lists no branch: a string that is not empty is the error of the
    run, and an empty one is not taken for an error, so that the run goes
    on with the merge-base command. When the value has no string, the
    validator throws what the conversion throws, and the boundary catches
    it. *)
Theorem validateLocalRepository_thrown_value
    (env : Env) (config : GitConflictDetectorConfig) (h0 h : history) (e : thrown) :
  validateConfig env config h0 = (Return None, h) →
  git_answer env config h revParseCommand = Throw e →
  instanceof_Error e = false →
  let h1 := h ++ [gitRequest config revParseCommand] in
  (∀ text, to_String e = Converted text →
     validateLocalRepository env config h = (Return (Some text), h1)
     ∧ (text ≠ [] →
        findPotentialConflicts env config h0 = (Return (failure (Some text)), h1))
     ∧ (text = [] →
        ∃ o rest,
          findPotentialConflicts env config h0
          = (o, h1 ++ gitRequest config (mergeBaseCommand config) :: rest)))
  ∧ (∀ fault, to_String e = Fault fault →
       validateLocalRepository env config h = (Throw fault, h1)
       ∧ findPotentialConflicts env config h0 = (boundary fault, h1)).
Proof.
  intros Hc Hans He h1.
  assert (validateLocalRepository env config h
          = (match to_String e with
             | Converted text => Return (Some text)
             | Fault fault => Throw fault
             end, h1)) as Hr.
  { rewrite validateLocalRepository_run, Hans. unfold invalid_repository.
    by rewrite He. }
  split.
  - intros text Hs. rewrite Hs in Hr. split; [done|]. split.
    + intros Hne.
      eapply findPotentialConflicts_repository_error; [exact Hc| |exact Hr|done].
      by intros [].
    + intros ->.
      assert (validated env config h0 h1) as Hv.
      { exists None, h, (Some []). split_and!; try done.
        - by intros [].
        - simpl. by intros Ht. }
      rewrite (findPotentialConflicts_validated env config h0 h1 Hv).
      destruct (findMergeBaseCommit env config h1) as [[mb|e'] hm] eqn:Hm.
      * apply findMergeBaseCommit_returns in Hm as (_ & _ & -> & _).
        destruct (getLocalChanges env config mb _) as [[L|e'] hl] eqn:Hl.
        -- apply getLocalChanges_history in Hl as ->.
           destruct (getRemoteChanges env config mb _) as [o hr] eqn:Hg.
           apply getRemoteChanges_history in Hg as ->.
           destruct o; eexists _, _; by rewrite <- !app_assoc.
        -- apply getLocalChanges_history in Hl as ->.
           eexists _, _; by rewrite <- !app_assoc.
      * apply findMergeBaseCommit_throws in Hm as ->. by eexists _, [].
  - intros fault Hs. rewrite Hs in Hr. split; [done|].
    eapply findPotentialConflicts_repository_fault; [exact Hc| |exact Hr].
    by intros [].
Qed.

Lemma validateLocalRepository_thrown_value_witness :
  validateLocalRepository empty_throw_env sample_config [ExistsSync (lit "/path/to/repo")]
  = (Return (Some []),
     [ExistsSync (lit "/path/to/repo"); gitRequest sample_config revParseCommand])
  ∧ ∃ o rest,
      findPotentialConflicts empty_throw_env sample_config []
      = (o,
         [ExistsSync (lit "/path/to/repo"); gitRequest sample_config revParseCommand]
         ++ gitRequest sample_config (mergeBaseCommand sample_config) :: rest).
Proof.
  destruct (validateLocalRepository_thrown_value empty_throw_env sample_config
              [] [ExistsSync (lit "/path/to/repo")] empty_string_thrown)
    as [Htext _]; [by vm_compute..|].
  destruct (Htext [] eq_refl) as (Hr & _ & Hgo).
  split; [exact Hr|]. by apply Hgo.
Defined.

(** * The command line *)

Lemma silent_intro (ev : cli_event) :
  match ev with
  | ReadFileSync _ | Detection _ _ | WriteFileSync _ _ => True
  | _ => False
  end → silent ev.
Proof. destruct ev; intros []; split_and!; by intros []. Qed.

Local Ltac silent_body := forall_each ltac:(by apply silent_intro).

Lemma detectAndReport_outcome cli argv accessToken :
  (∃ body ev, detectAndReport cli argv accessToken = body ++ [ev; ProcessExit 1]
              ∧ is_stderr ev ∧ Forall silent body)
  ∨ (∃ body text, detectAndReport cli argv accessToken = body ++ [ConsoleLog text]
                  ∧ Forall silent body).
Proof.
  unfold detectAndReport.
  destruct (findPotentialConflicts _ _ _) as [[result|e] calls].
  - case_decide.
    { left. eexists [_], _. split; [done|]. split; [done|]. silent_body. }
    destruct (argv_output_file argv) as [path|].
    + case_decide.
      * destruct (fs_writeFileSync cli path _).
        -- left. eexists [_; _], _. split; [done|]. split; [done|].
           silent_body.
        -- right. eexists [_; _], _. split; [done|]. silent_body.
      * right. eexists [_], _. split; [done|]. silent_body.
    + right. eexists [_], _. split; [done|]. silent_body.
  - left. eexists [_], _. split; [done|]. split; [done|]. silent_body.
Qed.

(** How [main] ends once it has the options. *)
Lemma readTokenAndRun_outcome (cli : CliEnv) (argv : Argv) :
  (∃ body ev, readTokenAndRun cli argv = body ++ [ev; ProcessExit 1]
              ∧ is_stderr ev ∧ Forall silent body)
  ∨ (∃ body text, readTokenAndRun cli argv = body ++ [ConsoleLog text]
                  ∧ Forall silent body).
Proof.
  unfold readTokenAndRun.
  destruct (argv_token_file argv) as [path|];
    [|apply detectAndReport_outcome].
  case_decide; [|apply detectAndReport_outcome].
  destruct (fs_readFileSync cli path) as [content|e].
  - destruct (detectAndReport_outcome cli argv (Some (trim content)))
      as [(body & ev & -> & Hev & Hbody)|(body & text & -> & Hbody)].
    + left. exists (ReadFileSync path :: body), ev.
      split; [done|]. split; [done|]. constructor; [by apply silent_intro|done].
    + right. exists (ReadFileSync path :: body), text.
      split; [done|]. constructor; [by apply silent_intro|done].
  - left. eexists [_], _. split; [done|]. split; [done|]. silent_body.
Qed.

Local Ltac no_such_event :=
  rewrite !elem_of_cons, elem_of_nil; intros Hin; decompose [or] Hin; done.

(** What reaches the handler of [main] once it has the options. *)
Lemma readTokenAndRun_unexpected_error (cli : CliEnv) (argv : Argv) (e : thrown) :
  ConsoleErrorUnexpected e ∈ readTokenAndRun cli argv →
  (∃ path data,
     argv_output_file argv = Some path
     ∧ WriteFileSync path data ∈ readTokenAndRun cli argv
     ∧ fs_writeFileSync cli path data = Some e)
  ∨ (∃ config calls,
       Detection config calls ∈ readTokenAndRun cli argv
       ∧ findPotentialConflicts (detector_env cli) config [] = (Throw e, calls)).
Proof.
  assert (∀ accessToken,
            ConsoleErrorUnexpected e ∈ detectAndReport cli argv accessToken →
            (∃ path data,
               argv_output_file argv = Some path
               ∧ WriteFileSync path data ∈ detectAndReport cli argv accessToken
               ∧ fs_writeFileSync cli path data = Some e)
            ∨ (∃ config calls,
                 Detection config calls ∈ detectAndReport cli argv accessToken
                 ∧ findPotentialConflicts (detector_env cli) config []
                   = (Throw e, calls))) as Hd.
  { intros accessToken. unfold detectAndReport.
    destruct (findPotentialConflicts (detector_env cli) (cliConfig argv accessToken) [])
      as [[result|e'] calls] eqn:Hrun; last first.
    { rewrite !elem_of_cons, elem_of_nil. intros [?|[[= <-]|[?|[]]]]; try done.
      right. exists (cliConfig argv accessToken), calls. split; [|done].
      rewrite !elem_of_cons. auto. }
    case_decide.
    { no_such_event. }
    destruct (argv_output_file argv) as [path|].
    - case_decide.
      + destruct (fs_writeFileSync cli path _) as [e'|] eqn:Hw.
        * rewrite !elem_of_cons, elem_of_nil. intros [?|[?|[[= <-]|[?|[]]]]]; try done.
          left. eexists path, _. split; [done|]. split; [|exact Hw].
          rewrite !elem_of_cons. auto.
        * no_such_event.
      + no_such_event.
    - no_such_event. }
  unfold readTokenAndRun.
  destruct (argv_token_file argv) as [path|]; [|apply Hd].
  case_decide; [|apply Hd].
  destruct (fs_readFileSync cli path) as [content|e'].
  - intros [?|Hin]%elem_of_cons; [done|].
    destruct (Hd _ Hin) as [(p & data & ? & ? & ?)|(config & calls & ? & ?)].
    + left. exists p, data. split; [done|]. split; [by right|done].
    + right. exists config, calls. split; [by right|done].
  - no_such_event.
Qed.

Local Ltac head_detection :=
  lazymatch goal with
  | Hhead : ∀ rest, Forall _ rest → _ |- _ =>
      let Hin := fresh "Hin" in
      intros Hin; refine (Hhead _ _ Hin); forall_each ltac:(by intros [])
  end.

(** The configuration [main] hands to the detector. *)
Lemma readTokenAndRun_detector_config
    (cli : CliEnv) (argv : Argv) (config : GitConflictDetectorConfig)
    (calls : history) :
  Detection config calls ∈ readTokenAndRun cli argv →
  owner config = argv_owner argv ∧ repo config = argv_repo argv
  ∧ localRepoPath config = argv_path argv
  ∧ branchA config = argv_branch_a argv ∧ branchB config = argv_branch_b argv
  ∧ (∀ path, argv_token_file argv = Some path → path ≠ [] →
       ∃ content, fs_readFileSync cli path = Return content
                  ∧ accessToken config = trim content)
  ∧ (argv_token_file argv = None ∨ argv_token_file argv = Some [] →
     accessToken config = default [] (argv_token argv))
  ∧ calls = (findPotentialConflicts (detector_env cli) config []).2
  ∧ length (filter is_detection (readTokenAndRun cli argv)) = 1%nat.
Proof.
  assert (∀ accessToken,
            Detection config calls ∈ detectAndReport cli argv accessToken →
            config = cliConfig argv accessToken
            ∧ calls = (findPotentialConflicts (detector_env cli) config []).2
            ∧ length (filter is_detection (detectAndReport cli argv accessToken))
              = 1%nat)
    as Hd.
  { intros accessToken. unfold detectAndReport.
    destruct (findPotentialConflicts (detector_env cli) (cliConfig argv accessToken) [])
      as [o calls'] eqn:Hrun.
    assert (∀ rest, Forall (λ ev, ¬ is_detection ev) rest →
              Detection config calls ∈ Detection (cliConfig argv accessToken) calls' :: rest →
              config = cliConfig argv accessToken
              ∧ calls = (findPotentialConflicts (detector_env cli) config []).2
              ∧ length (filter is_detection
                          (Detection (cliConfig argv accessToken) calls' :: rest))
                = 1%nat) as Hhead.
    { intros rest Hrest [[= -> ->]|Hin]%elem_of_cons.
      - rewrite Hrun. split; [done|]. split; [done|].
        rewrite filter_cons, decide_True by done. simpl. f_equal.
        induction Hrest as [|ev rest Hev _ IH]; [done|].
        by rewrite filter_cons, decide_False.
      - exfalso. eapply Forall_forall in Hrest; [|exact Hin]. by apply Hrest. }
    destruct o as [result|e]; cbv beta iota zeta; [|head_detection].
    case_decide; [head_detection|].
    destruct (argv_output_file argv) as [path|]; [|head_detection].
    case_decide; [|head_detection].
    destruct (fs_writeFileSync cli path _); head_detection. }
  unfold readTokenAndRun.
  destruct (argv_token_file argv) as [path|] eqn:Hfile.
  - destruct (decide (truthy path)) as [Hpath|Hpath].
    + destruct (fs_readFileSync cli path) as [content|e] eqn:Hread.
      * intros [?|Hin]%elem_of_cons; [done|].
        destruct (Hd _ Hin) as (-> & Hcalls & Hone). simpl.
        split_and!; try done.
        -- intros ? [= <-] _. by exists content.
        -- by intros [?|[= ->]].
      * no_such_event.
    + intros Hin. destruct (Hd _ Hin) as (-> & Hcalls & Hone). simpl.
      split_and!; try done.
      intros ? [= <-] ?. by destruct Hpath.
  - intros Hin. destruct (Hd _ Hin) as (-> & Hcalls & Hone). simpl.
    by split_and!.
Qed.

(** ** The text report *)

Lemma pretty_N_go_digits (x : N) (s : string) :
  Forall (λ c, 48 ≤ c ≤ 57)%N (lit s) →
  Forall (λ c, 48 ≤ c ≤ 57)%N (lit (pretty_N_go x s)).
Proof.
  revert s. induction (N.lt_wf_0 x) as [x _ IH]; intros s Hs.
  assert (x = 0 ∨ 0 < x)%N as [->|Hx] by lia.
  - by rewrite pretty_N_go_0.
  - rewrite pretty_N_go_step by done. apply IH; [by apply N.div_lt|].
    rewrite lit_String. constructor; [|done].
    unfold pretty_N_char.
    repeat case_match; apply (bool_decide_unpack _); by vm_compute.
Qed.

Lemma number_to_string_digits (n : N) :
  Forall (λ c, 48 ≤ c ≤ 57)%N (number_to_string n).
Proof.
  unfold number_to_string, pretty, pretty_N. case_decide.
  - rewrite lit_String. constructor; [|by with_strategy transparent [lit] constructor].
    apply (bool_decide_unpack _); by vm_compute.
  - apply pretty_N_go_digits. by with_strategy transparent [lit] constructor.
Qed.

Lemma number_to_string_one_line (n : N) : LF ∉ number_to_string n.
Proof.
  intros Hin. pose proof (number_to_string_digits n) as Hd.
  eapply Forall_forall in Hd; [|exact Hin]. unfold LF in Hd. lia.
Qed.

Lemma foldl_report_lines (output : jsstring) (paths : list jsstring) :
  foldl (λ output file, output ++ lit "- " ++ file ++ [LF]) output paths
  = output ++ concat ((λ line, line ++ [LF]) <$> ((λ file, lit "- " ++ file) <$> paths)).
Proof.
  revert output. induction paths as [|file paths IH]; intros output; simpl.
  - by rewrite app_nil_r.
  - rewrite IH. by rewrite <- !app_assoc.
Qed.

Lemma formatText_report_lines (result : ConflictDetectionResult) :
  formatText result = concat ((λ line, line ++ [LF]) <$> report_lines result).
Proof.
  unfold formatText, report_lines.
  destruct (potentialConflicts result) as [|file paths] eqn:Hpaths.
  - rewrite decide_False by (simpl; lia). simpl.
    by rewrite <- !app_assoc.
  - rewrite decide_True by (simpl; lia). rewrite foldl_report_lines.
    rewrite fmap_app, concat_app. simpl. by rewrite <- !app_assoc.
Qed.

Lemma split_lines (lines : list jsstring) :
  Forall (λ line, LF ∉ line) lines →
  split LF (concat ((λ line, line ++ [LF]) <$> lines)) = lines ++ [[]].
Proof.
  induction 1 as [|line lines Hline _ IH]; [done|].
  rewrite fmap_cons, concat_cons, <- app_assoc. cbn [app].
  rewrite split_app_cons by done. by rewrite IH.
Qed.

(** X19. When the merge base and the paths hold no line feed, the text
    report is made of lines that each end in a line feed: the merge base,
    the count of candidates, then one line [- path] per candidate in the
    order of the result, or the line saying that none was found. *)
Theorem formatText_lines (result : ConflictDetectionResult) :
  LF ∉ mergeBaseCommit result →
  Forall (λ file, LF ∉ file) (potentialConflicts result) →
  split LF (formatText result) = report_lines result ++ [[]].
Proof.
  intros Hbase Hpaths. rewrite formatText_report_lines. apply split_lines.
  unfold report_lines. apply Forall_app. split.
  - forall_each ltac:(cbv beta).
    + apply not_elem_of_app. split; [closed_fact|done].
    + rewrite !not_elem_of_app. split_and!;
        [closed_fact|apply number_to_string_one_line|closed_fact].
  - destruct (potentialConflicts result) as [|file paths] eqn:Hp.
    + forall_each ltac:(cbv beta; closed_fact).
    + cbv beta iota. apply Forall_fmap.
      eapply Forall_impl; [exact Hpaths|]. cbv beta. intros path Hpath.
      apply not_elem_of_app. split; [closed_fact|done].
Qed.

Lemma formatText_lines_witness :
  split LF (formatText sample_result)
  = [lit "Merge base commit: mergebasecommithash123";
     lit "Found 2 potential conflicts:";
     lit "- src/file1.js"; lit "- docs/a b.md"; []].
Proof.
  rewrite (formatText_lines sample_result).
  - by vm_compute.
  - closed_fact.
  - unfold sample_result. simpl. forall_each ltac:(cbv beta; closed_fact).
Defined.

(** ** What [main] reports *)

Lemma detectAndReport_error_line cli argv accessToken text :
  ConsoleError text ∈ detectAndReport cli argv accessToken
  ↔ ∃ result calls msg,
      findPotentialConflicts (detector_env cli) (cliConfig argv accessToken) []
      = (Return result, calls)
      ∧ error result = Some msg ∧ msg ≠ [] ∧ text = lit "Error: " ++ msg.
Proof.
  unfold detectAndReport.
  destruct (findPotentialConflicts (detector_env cli) (cliConfig argv accessToken) [])
    as [[result|e] calls]; last first.
  { split; [no_such_event|]. by intros (? & ? & ? & [=] & _). }
  split.
  - case_decide as Herr.
    + rewrite !elem_of_cons, elem_of_nil. intros [?|[[= ->]|[?|[]]]]; try done.
      destruct (error result) as [msg|] eqn:Hmsg; [|done].
      by exists result, calls, msg.
    + destruct (argv_output_file argv) as [path|]; [|no_such_event].
      case_decide; [|no_such_event].
      destruct (fs_writeFileSync cli path _); no_such_event.
  - intros (result' & calls' & msg & [= <- <-] & Hmsg & Hne & ->).
    rewrite decide_True by (by rewrite Hmsg). rewrite Hmsg.
    rewrite !elem_of_cons. auto.
Qed.

Lemma detectAndReport_detection cli argv accessToken config calls :
  Detection config calls ∈ detectAndReport cli argv accessToken →
  config = cliConfig argv accessToken.
Proof.
  unfold detectAndReport.
  destruct (findPotentialConflicts _ _ _) as [[result|e] calls'].
  - case_decide.
    { rewrite !elem_of_cons, elem_of_nil. intros [[= -> _]|[?|[?|[]]]]; done. }
    destruct (argv_output_file argv) as [path|].
    + case_decide.
      * destruct (fs_writeFileSync cli path _);
          rewrite !elem_of_cons, elem_of_nil; intros Hin; decompose [or] Hin;
            try done; congruence.
      * rewrite !elem_of_cons, elem_of_nil. intros [[= -> _]|[?|[]]]; done.
    + rewrite !elem_of_cons, elem_of_nil. intros [[= -> _]|[?|[]]]; done.
  - rewrite !elem_of_cons, elem_of_nil. intros [[= -> _]|[?|[?|[]]]]; done.
Qed.

Lemma detectAndReport_head cli argv accessToken :
  ∃ tail,
    detectAndReport cli argv accessToken
    = Detection (cliConfig argv accessToken)
        (findPotentialConflicts (detector_env cli) (cliConfig argv accessToken) []).2
      :: tail.
Proof.
  unfold detectAndReport.
  destruct (findPotentialConflicts _ _ _) as [[result|e] calls']; simpl;
    repeat case_match; eexists; reflexivity.
Qed.

(** The lines [main] writes with [console.error] and a message of its own. *)
Lemma readTokenAndRun_error_line (cli : CliEnv) (argv : Argv) (text : jsstring) :
  ConsoleError text ∈ readTokenAndRun cli argv
  ↔ (∃ path e,
       argv_token_file argv = Some path ∧ path ≠ []
       ∧ fs_readFileSync cli path = Throw e
       ∧ text = lit "Error reading token file: " ++ template (message e))
    ∨ (∃ config calls result msg,
         Detection config calls ∈ readTokenAndRun cli argv
         ∧ findPotentialConflicts (detector_env cli) config [] = (Return result, calls)
         ∧ error result = Some msg ∧ msg ≠ []
         ∧ text = lit "Error: " ++ msg).
Proof.
  assert (∀ accessToken pre,
            readTokenAndRun cli argv = pre ++ detectAndReport cli argv accessToken →
            Forall silent pre → Forall (λ ev, ¬ is_detection ev) pre →
            ConsoleError text ∈ readTokenAndRun cli argv
            ↔ (∃ config calls result msg,
                 Detection config calls ∈ readTokenAndRun cli argv
                 ∧ findPotentialConflicts (detector_env cli) config []
                   = (Return result, calls)
                 ∧ error result = Some msg ∧ msg ≠ []
                 ∧ text = lit "Error: " ++ msg)) as Hd.
  { intros accessToken pre -> Hpre Hnd. split.
    - intros [Hin|Hin]%elem_of_app.
      { eapply Forall_forall in Hpre; [|exact Hin].
        destruct Hpre as (_ & Herr & _). by destruct Herr. }
      apply detectAndReport_error_line in Hin
        as (result & calls & msg & Hrun & Hmsg & Hne & ->).
      exists (cliConfig argv accessToken), calls, result, msg.
      split; [|done]. apply elem_of_app. right.
      destruct (detectAndReport_head cli argv accessToken) as (tail & Hhead).
      rewrite Hrun in Hhead. rewrite Hhead. apply elem_of_cons. by left.
    - intros (config & calls & result & msg & Hin & Hrun & Hmsg & Hne & ->).
      apply elem_of_app. right. apply detectAndReport_error_line.
      apply elem_of_app in Hin as [Hin|Hin].
      { eapply Forall_forall in Hnd; [|exact Hin]. by destruct Hnd. }
      apply detectAndReport_detection in Hin as ->.
      by exists result, calls, msg. }
  pose proof (Hd (argv_token argv) []) as Hplain.
  unfold readTokenAndRun in *.
  destruct (argv_token_file argv) as [path|].
  - destruct (decide (truthy path)) as [Hpath|Hpath].
    + destruct (fs_readFileSync cli path) as [content|e] eqn:Hread.
      * rewrite (Hd (Some (trim content)) [ReadFileSync path]);
          [|done|forall_each ltac:(by apply silent_intro)
           |forall_each ltac:(by intros [])].
        split; [by right|]. intros [(? & ? & [= <-] & _ & ? & _)|?]; [|done].
        congruence.
      * split.
        -- rewrite !elem_of_cons, elem_of_nil. intros [?|[[= ->]|[?|[]]]]; try done.
           left. by exists path, e.
        -- intros [(? & e' & [= <-] & _ & He & ->)|(?&?&?&?& Hin & _)].
           ++ assert (e' = e) as -> by congruence.
              rewrite !elem_of_cons. auto.
           ++ revert Hin. no_such_event.
    + rewrite Hplain by done.
      split; [by right|]. intros [(? & ? & [= <-] & Hne & _)|?]; [|done].
      by destruct Hpath.
  - rewrite Hplain by done.
    split; [by right|]. by intros [(? & ? & [=] & _)|?].
Qed.

(** A token file that holds white space only. *)
Lemma readTokenAndRun_blank_token (cli : CliEnv) (argv : Argv)
    (path content : jsstring) :
  argv_owner argv ≠ [] → argv_repo argv ≠ [] →
  argv_token_file argv = Some path → path ≠ [] →
  fs_readFileSync cli path = Return content → blank content →
  readTokenAndRun cli argv
  = [ReadFileSync path;
     Detection (cliConfig argv (Some [])) [];
     ConsoleError (lit "Error: Access token is required");
     ProcessExit 1].
Proof.
  intros Howner Hrepo Hfile Hpath Hread Hblank.
  assert (findPotentialConflicts (detector_env cli) (cliConfig argv (Some [])) []
          = (Return (failure (Some (lit "Access token is required"))), []))
    as Hrun.
  { unfold findPotentialConflicts, validateConfig, cliConfig. simpl.
    destruct (argv_owner argv) as [|c1 o]; [done|].
    destruct (argv_repo argv) as [|c2 r]; [done|].
    by vm_compute. }
  unfold readTokenAndRun.
  rewrite Hfile, decide_True, Hread by done. rewrite Hblank.
  unfold detectAndReport. rewrite Hrun.
  rewrite decide_True by (by vm_compute). done.
Qed.

(** ** From the command line to the run *)

(** What [parseArgs] comes to: yargs ends the run on its own, the [check]
    fails, or [main] gets the options, with a token or a token file. *)
Lemma parseArgs_cases (cli : CliEnv) :
  (∃ code, yargs_parseSync cli = YargsExit code
           ∧ parseArgs cli = inl [YargsOutput; ProcessExit code])
  ∨ (∃ argv, yargs_parseSync cli = YargsOptions argv
             ∧ ¬ truthy_value (argv_token argv)
             ∧ ¬ truthy_value (argv_token_file argv)
             ∧ parseArgs cli
               = inl [YargsFail (new_Error
                        (lit "Either --token or --token-file must be provided"));
                      ProcessExit 1])
  ∨ (∃ argv, yargs_parseSync cli = YargsOptions argv
             ∧ (truthy_value (argv_token argv) ∨ truthy_value (argv_token_file argv))
             ∧ parseArgs cli = inr argv).
Proof.
  unfold parseArgs, check.
  destruct (yargs_parseSync cli) as [code|argv]; [left; by exists code|].
  case_decide as Hd.
  - right; left. exists argv. by destruct Hd.
  - right; right. exists argv. split; [done|]. split; [|done].
    destruct (decide (truthy_value (argv_token argv))); [by left|].
    destruct (decide (truthy_value (argv_token_file argv))); [by right|].
    by destruct Hd.
Qed.

Lemma main_parsed (cli : CliEnv) (argv : Argv) :
  parseArgs cli = inr argv → main cli = readTokenAndRun cli argv.
Proof. unfold main. by intros ->. Qed.

(** When yargs ends the run, [main] does nothing of its own. *)
Lemma main_ended (cli : CliEnv) (ended : list cli_event) (ev : cli_event) :
  parseArgs cli = inl ended → ev ∈ main cli →
  ev = YargsOutput ∨ (∃ e, ev = YargsFail e) ∨ (∃ code, ev = ProcessExit code).
Proof.
  unfold main. intros Hp. rewrite Hp.
  destruct (parseArgs_cases cli) as [(code & _ & Hq)|[(argv & _ & _ & _ & Hq)
                                   |(argv & _ & _ & Hq)]];
    rewrite Hq in Hp; simplify_eq;
    rewrite !elem_of_cons, elem_of_nil; intros [->|[->|[]]]; eauto.
Qed.

Lemma main_parsed_of (cli : CliEnv) (ev : cli_event) :
  ev ∈ main cli →
  match ev with
  | YargsOutput | YargsFail _ | ProcessExit _ => False
  | _ => True
  end →
  ∃ argv, parseArgs cli = inr argv ∧ main cli = readTokenAndRun cli argv.
Proof.
  intros Hin Hev. destruct (parseArgs cli) as [ended|argv] eqn:Hp.
  - destruct (main_ended cli ended ev Hp Hin) as [->|[[e ->]|[code ->]]]; done.
  - exists argv. split; [done|]. by apply main_parsed.
Qed.

(** X16. A run of [main] ends in one of four ways. Yargs ends it on its
    own, before [main] does anything: it prints its text and leaves with
    its status. Or the options name neither a token nor a token file: the
    [check] throws, yargs reports it and leaves with status 1. Or the run
    fails: its last two events are one line on the error console and
    [process.exit(1)], and nothing is logged to the standard output. Or it
    succeeds: its last event is its only [console.log], nothing is written
    to the error console and [process.exit] is not called. *)
Theorem main_outcome (cli : CliEnv) :
  (∃ code, yargs_parseSync cli = YargsExit code
           ∧ main cli = [YargsOutput; ProcessExit code])
  ∨ (∃ argv, yargs_parseSync cli = YargsOptions argv
             ∧ ¬ truthy_value (argv_token argv)
             ∧ ¬ truthy_value (argv_token_file argv)
             ∧ main cli
               = [YargsFail (new_Error
                    (lit "Either --token or --token-file must be provided"));
                  ProcessExit 1])
  ∨ (∃ body ev, main cli = body ++ [ev; ProcessExit 1]
                ∧ is_stderr ev ∧ Forall silent body)
  ∨ (∃ body text, main cli = body ++ [ConsoleLog text]
                  ∧ Forall silent body).
Proof.
  unfold main.
  destruct (parseArgs_cases cli) as [(code & Hy & ->)|[(argv & Hy & Ht & Hf & ->)
                                   |(argv & _ & _ & ->)]].
  - left. by exists code.
  - right; left. by exists argv.
  - right; right. apply readTokenAndRun_outcome.
Qed.



(** X18. The detector is run with the fields of the command line. Its
    access token is the content of the token file, trimmed, whenever a
    token file is named (a token given beside it is not used), and the
    token of the command line otherwise. The detector is run once. *)
Theorem main_detector_config
    (cli : CliEnv) (config : GitConflictDetectorConfig) (calls : history) :
  Detection config calls ∈ main cli →
  ∃ argv,
    parseArgs cli = inr argv
    ∧ owner config = argv_owner argv ∧ repo config = argv_repo argv
    ∧ localRepoPath config = argv_path argv
    ∧ branchA config = argv_branch_a argv ∧ branchB config = argv_branch_b argv
    ∧ (∀ path, argv_token_file argv = Some path → path ≠ [] →
         ∃ content, fs_readFileSync cli path = Return content
                    ∧ accessToken config = trim content)
    ∧ (argv_token_file argv = None ∨ argv_token_file argv = Some [] →
       accessToken config = default [] (argv_token argv))
    ∧ calls = (findPotentialConflicts (detector_env cli) config []).2
    ∧ length (filter is_detection (main cli)) = 1%nat.
Proof.
  intros Hin.
  destruct (main_parsed_of cli _ Hin I) as (argv & Hp & Hmain).
  rewrite Hmain in Hin |- *. exists argv. split; [done|].
  by apply readTokenAndRun_detector_config.
Qed.

Lemma main_detector_config_witness :
  ∃ calls,
    Detection sample_config calls ∈ main sample_cli
    ∧ accessToken sample_config = trim (lit "test-token" ++ [LF]).
Proof.
  assert (∃ calls log,
            main sample_cli
            = [ReadFileSync (lit "token.txt"); Detection sample_config calls; log])
    as (calls & log & Hmain) by (eexists _, _; by vm_compute).
  assert (Detection sample_config calls ∈ main sample_cli) as Hin
    by (rewrite Hmain, !elem_of_cons; auto).
  exists calls. split; [done|].
  destruct (main_detector_config sample_cli sample_config calls Hin)
    as (argv & Hp & _ & _ & _ & _ & _ & Hfile & _).
  assert (parseArgs sample_cli = inr sample_argv) as Hq by by vm_compute.
  rewrite Hq in Hp. injection Hp as <-.
  destruct (Hfile (lit "token.txt")) as (content & Hread & Htoken);
    [done|by vm_compute|].
  injection Hread as <-. exact Htoken.
Defined.

(** X20. What [main] writes with [console.error] and a message of its
    own: either the token file could not be read, or the detector returned
    an error that is not the empty string, which is printed after
    "Error: ". An error that is the empty string is not reported. *)
Theorem main_error_line (cli : CliEnv) (text : jsstring) :
  ConsoleError text ∈ main cli
  ↔ ∃ argv,
      parseArgs cli = inr argv
      ∧ ((∃ path e,
            argv_token_file argv = Some path ∧ path ≠ []
            ∧ fs_readFileSync cli path = Throw e
            ∧ text = lit "Error reading token file: " ++ template (message e))
         ∨ (∃ config calls result msg,
              Detection config calls ∈ main cli
              ∧ findPotentialConflicts (detector_env cli) config []
                = (Return result, calls)
              ∧ error result = Some msg ∧ msg ≠ []
              ∧ text = lit "Error: " ++ msg)).
Proof.
  split.
  - intros Hin. destruct (main_parsed_of cli _ Hin I) as (argv & Hp & Hmain).
    rewrite Hmain in Hin |- *. exists argv. split; [done|].
    by apply readTokenAndRun_error_line.
  - intros (argv & Hp & Hcases). rewrite (main_parsed cli argv Hp) in Hcases |- *.
    by apply readTokenAndRun_error_line.
Qed.

(** X21. A command line that names neither a token nor a token file (or
    empty ones) does not reach the detector: the [check] throws, and yargs
    reports "Either --token or --token-file must be provided" and leaves
    with status 1. A token file that holds white space only counts as no
    token, also when a token is given beside it: with an owner and a
    repository name, [main] reads the file and runs the detector, which
    makes no external call, prints "Error: Access token is required" and
    exits with status 1. *)
Theorem main_blank_token (cli : CliEnv) (argv : Argv) :
  yargs_parseSync cli = YargsOptions argv →
  (¬ truthy_value (argv_token argv) → ¬ truthy_value (argv_token_file argv) →
   main cli
   = [YargsFail (new_Error (lit "Either --token or --token-file must be provided"));
      ProcessExit 1])
  ∧ (∀ path content,
       argv_owner argv ≠ [] → argv_repo argv ≠ [] →
       argv_token_file argv = Some path → path ≠ [] →
       fs_readFileSync cli path = Return content → blank content →
       main cli
       = [ReadFileSync path;
          Detection (cliConfig argv (Some [])) [];
          ConsoleError (lit "Error: Access token is required");
          ProcessExit 1]).
Proof.
  intros Hy. split.
  - intros Ht Hf. unfold main, parseArgs, check. rewrite Hy.
    by rewrite decide_True.
  - intros path content Howner Hrepo Hfile Hpath Hread Hblank.
    assert (parseArgs cli = inr argv) as Hp.
    { unfold parseArgs, check. rewrite Hy. rewrite decide_False; [done|].
      intros [_ Hf]. apply Hf. by rewrite Hfile. }
    rewrite (main_parsed cli argv Hp).
    by apply (readTokenAndRun_blank_token cli argv path content).
Qed.

Lemma main_blank_token_witness :
  main no_token_cli
  = [YargsFail (new_Error (lit "Either --token or --token-file must be provided"));
     ProcessExit 1]
  ∧ main blank_token_cli
    = [ReadFileSync (lit "token.txt");
       Detection (cliConfig sample_argv (Some [])) [];
       ConsoleError (lit "Error: Access token is required");
       ProcessExit 1].
Proof.
  split.
  - destruct (main_blank_token no_token_cli no_token_argv eq_refl) as [Hcheck _].
    apply Hcheck; by vm_compute.
  - destruct (main_blank_token blank_token_cli sample_argv eq_refl) as [_ Hfile].
    apply (Hfile (lit "token.txt") [SPACE; SPACE; LF]); by vm_compute.
Defined.
